(** * Swift signed tokens of the RADOS gateway (src/rgw/rgw_swift_auth.cc)

    A shallow embedding of [build_token], [encode_token] and
    [rgw_swift_verify_signed_token], and the properties of the token
    protocol that follow from them.

    Buffers ([bufferlist], [std::string], [char*]) are lists of 8-bit
    characters; C integers are [Z] with the conversions written out; the
    external collaborators (account store, clock, random source) are
    arguments of the functions that call them. *)

From Stdlib Require Import ZArith Ascii String DecimalString List Bool Lia.
Import ListNotations.
Local Open Scope Z_scope.

(* ================================================================== *)
(** * Bytes and machine integers *)

Definition bytes := list ascii.

Definition Z_of_byte (c : ascii) : Z := Z.of_N (N_of_ascii c).
Definition byte_of_Z (z : Z) : ascii := ascii_of_N (Z.to_N (z mod 256)).

Definition NUL : ascii := byte_of_Z 0.

(** [a |= b] on [char]. *)
Definition byte_or (a b : ascii) : ascii :=
  byte_of_Z (Z.lor (Z_of_byte a) (Z_of_byte b)).

Definition byte_xor (a b : ascii) : ascii :=
  byte_of_Z (Z.lxor (Z_of_byte a) (Z_of_byte b)).

Definition bytes_eqb (a b : bytes) : bool :=
  if list_eq_dec ascii_dec a b then true else false.

Definition INT_MAX : Z := 2 ^ 31 - 1.

(** Conversion of a [size_t] to [int]: reduction to 32 bits, two's
    complement. *)
Definition int_of_size_t (n : Z) : Z :=
  let m := n mod 2 ^ 32 in
  if m <? 2 ^ 31 then m else m - 2 ^ 32.

Definition EPERM : Z := 1.
Definition EINVAL : Z := 22.

(** Modelled from the spec: CEPH_CRYPTO_HMACSHA1_DIGESTSIZE of
    common/ceph_crypto.h, the digest length of the SHA-1 based MAC
    (20 bytes). *)
Definition CEPH_CRYPTO_HMACSHA1_DIGESTSIZE : nat := 20.

(** Modelled from the spec: RGW_SWIFT_TOKEN_EXPIRATION of
    rgw_swift_auth.h, the fixed time-to-live of a token: 15 minutes, in
    seconds. *)
Definition RGW_SWIFT_TOKEN_EXPIRATION : Z := 15 * 60.

(* ================================================================== *)
(** * Fixed-width integer encoding *)

(** Modelled from the spec: the raw integer [::encode]/[::decode] of
    include/encoding.h; the pinned layout is little-endian. [encode_le w n]
    is the [w] low bytes of [n], least significant first. *)
Fixpoint encode_le (w : nat) (n : Z) : bytes :=
  match w with
  | O => []
  | S w' => byte_of_Z n :: encode_le w' (n / 256)
  end.

Fixpoint decode_le (l : bytes) : Z :=
  match l with
  | [] => 0
  | c :: l' => Z_of_byte c + 256 * decode_le l'
  end.

(** Big-endian words, as SHA-1 reads and writes them. *)
Definition decode_be (l : bytes) : Z := decode_le (rev l).
Definition encode_be (w : nat) (n : Z) : bytes := rev (encode_le w n).

(* ================================================================== *)
(** * Hex transport codec *)

Definition hex_char (d : Z) : ascii :=
  if d <? 10 then byte_of_Z (48 + d) else byte_of_Z (87 + d).

(** Modelled from the spec: [buf_to_hex] of rgw_common.cc; two lowercase
    hex characters per byte, high nibble first. *)
Fixpoint buf_to_hex (buf : bytes) : bytes :=
  match buf with
  | [] => []
  | c :: buf' =>
      hex_char (Z_of_byte c / 16) :: hex_char (Z_of_byte c mod 16)
        :: buf_to_hex buf'
  end.

(** Value of a hex character, [-EINVAL] for any other character. *)
Definition hexdigit (c : ascii) : Z :=
  let v := Z_of_byte c in
  if (48 <=? v) && (v <=? 57) then v - 48
  else if (97 <=? v) && (v <=? 102) then v - 97 + 10
  else if (65 <=? v) && (v <=? 70) then v - 65 + 10
  else - EINVAL.

(** Modelled from the spec: [hex_to_buf] of rgw_common.cc. The result is
    the return code and the bytes written: the number of bytes on success,
    [-EINVAL] on a character that is not a hex digit or on a dangling
    last character. *)
Fixpoint hex_to_buf (hex : bytes) : Z * bytes :=
  match hex with
  | [] => (0, [])
  | [_] => (- EINVAL, [])
  | h :: l :: hex' =>
      if (hexdigit h <? 0) || (hexdigit l <? 0) then (- EINVAL, [])
      else
        let '(ret, buf) := hex_to_buf hex' in
        if ret <? 0 then (ret, [])
        else (ret + 1, byte_of_Z (hexdigit h * 16 + hexdigit l) :: buf)
  end.

(* ================================================================== *)
(** * SHA-1 and HMAC-SHA1 *)

Module SHA1.

Definition w32 (x : Z) : Z := x mod 2 ^ 32.

Definition rotl (n x : Z) : Z :=
  Z.lor (w32 (Z.shiftl x n)) (Z.shiftr x (32 - n)).

Definition add32 (a b : Z) : Z := w32 (a + b).

Definition lnot32 (x : Z) : Z := 2 ^ 32 - 1 - x.

Definition f (t : nat) (b c d : Z) : Z :=
  if (t <? 20)%nat then Z.lor (Z.land b c) (Z.land (lnot32 b) d)
  else if (t <? 40)%nat then Z.lxor (Z.lxor b c) d
  else if (t <? 60)%nat then
    Z.lor (Z.lor (Z.land b c) (Z.land b d)) (Z.land c d)
  else Z.lxor (Z.lxor b c) d.

Definition K (t : nat) : Z :=
  if (t <? 20)%nat then 0x5A827999
  else if (t <? 40)%nat then 0x6ED9EBA1
  else if (t <? 60)%nat then 0x8F1BBCDC
  else 0xCA62C1D6.

Definition state : Type := Z * Z * Z * Z * Z.

Definition init : state :=
  (0x67452301, 0xEFCDAB89, 0x98BADCFE, 0x10325476, 0xC3D2E1F0).

(** The message schedule is kept as a window of the last 16 words,
    oldest first. *)
Definition next_word (w : list Z) : Z :=
  rotl 1 (Z.lxor (Z.lxor (Z.lxor (nth 13 w 0) (nth 8 w 0)) (nth 2 w 0))
                 (nth 0 w 0)).

Fixpoint rounds (n t : nat) (w : list Z) (s : state) : state :=
  match n with
  | O => s
  | S n' =>
      let '(a, b, c, d, e) := s in
      let tmp :=
        add32 (add32 (add32 (add32 (rotl 5 a) (f t b c d)) e) (K t))
              (nth 0 w 0) in
      rounds n' (S t) (tl w ++ [next_word w]) (tmp, a, rotl 30 b, c, d)
  end.

Fixpoint words (n : nat) (block : bytes) : list Z :=
  match n with
  | O => []
  | S n' => decode_be (firstn 4 block) :: words n' (skipn 4 block)
  end.

Definition compress (s : state) (block : bytes) : state :=
  let '(h0, h1, h2, h3, h4) := s in
  let '(a, b, c, d, e) := rounds 80 0 (words 16 block) s in
  (add32 h0 a, add32 h1 b, add32 h2 c, add32 h3 d, add32 h4 e).

Fixpoint blocks (n : nat) (msg : bytes) (s : state) : state :=
  match n with
  | O => s
  | S n' => blocks n' (skipn 64 msg) (compress s (firstn 64 msg))
  end.

Definition pad (msg : bytes) : bytes :=
  let len := Z.of_nat (length msg) in
  let zeros := Z.to_nat ((55 - len) mod 64) in
  msg ++ byte_of_Z 0x80 :: repeat NUL zeros ++ encode_be 8 (8 * len).

Definition digest (msg : bytes) : bytes :=
  let m := pad msg in
  let '(h0, h1, h2, h3, h4) := blocks (length m / 64) m init in
  encode_be 4 h0 ++ encode_be 4 h1 ++ encode_be 4 h2 ++ encode_be 4 h3
    ++ encode_be 4 h4.

Definition block_size : nat := 64.

Definition hmac (key msg : bytes) : bytes :=
  let k := if (block_size <? length key)%nat then digest key else key in
  let k0 := k ++ repeat NUL (block_size - length k) in
  let ipad := map (byte_xor (byte_of_Z 0x36)) k0 in
  let opad := map (byte_xor (byte_of_Z 0x5c)) k0 in
  digest (opad ++ digest (ipad ++ msg)).

End SHA1.

(** Modelled from the spec: [calc_hmac_sha1] of rgw_common.cc, the keyed
    message authentication code (HMAC over SHA-1) of [msg] under [key];
    the digest has CEPH_CRYPTO_HMACSHA1_DIGESTSIZE bytes. *)
Definition calc_hmac_sha1 (key msg : bytes) : bytes := SHA1.hmac key msg.

Definition bytes_of_string (s : string) : bytes := list_ascii_of_string s.

(* ================================================================== *)
(** * Timestamps *)

(** Modelled from the spec: [utime_t] of include/utime.h, an absolute
    timestamp of seconds and a sub-second fraction, with the pinned widths
    of 8 bytes of seconds and 4 bytes of nanoseconds. *)
Record utime_t : Type := mk_utime { tv_sec : Z; tv_nsec : Z }.

(** Modelled from the spec: [operator+=] of [utime_t] with a number of
    seconds, in 64-bit unsigned arithmetic. *)
Definition utime_add (t : utime_t) (secs : Z) : utime_t :=
  mk_utime ((tv_sec t + secs) mod 2 ^ 64) (tv_nsec t).

(** Modelled from the spec: [operator<] of [utime_t]. *)
Definition utime_lt (a b : utime_t) : bool :=
  (tv_sec a <? tv_sec b)
  || ((tv_sec a =? tv_sec b) && (tv_nsec a <? tv_nsec b)).

(* ================================================================== *)
(** * Payload codec *)

(** Modelled from the spec: [::encode] of a string, a 64-bit integer and
    a timestamp (include/encoding.h, include/utime.h). Each appends to
    the buffer: a string as its 4-byte length and its characters, the
    nonce as 8 bytes, the timestamp as 8 bytes of seconds and 4 bytes of
    nanoseconds. *)
Definition encode_string (s : bytes) (bl : bytes) : bytes :=
  let len := Z.of_nat (length s) mod 2 ^ 32 in
  bl ++ encode_le 4 len ++ firstn (Z.to_nat len) s.

Definition encode_u64 (n : Z) (bl : bytes) : bytes :=
  bl ++ encode_le 8 n.

Definition encode_utime (t : utime_t) (bl : bytes) : bytes :=
  bl ++ encode_le 8 (tv_sec t) ++ encode_le 4 (tv_nsec t).

(** Decoding advances an iterator over the buffer; [None] is the
    [buffer::error] thrown when the buffer ends before the value does. *)
Definition decoder (A : Type) : Type := bytes -> option (A * bytes).

Definition dret {A} (a : A) : decoder A := fun it => Some (a, it).

Definition dbind {A B} (d : decoder A) (k : A -> decoder B) : decoder B :=
  fun it =>
    match d it with
    | Some (a, it') => k a it'
    | None => None
    end.

Notation "x <- d ;; k" := (dbind d (fun x => k))
  (at level 61, d at next level, right associativity).

(** Modelled from the spec: the bounds-checked copy out of the buffer
    that every [::decode] goes through. *)
Definition copy_out (n : nat) : decoder bytes :=
  fun it =>
    if (n <=? length it)%nat then Some (firstn n it, skipn n it) else None.

Definition decode_uint (w : nat) : decoder Z :=
  b <- copy_out w ;; dret (decode_le b).

Definition decode_string : decoder bytes :=
  len <- decode_uint 4 ;; copy_out (Z.to_nat len).

Definition decode_utime : decoder utime_t :=
  sec <- decode_uint 8 ;;
  nsec <- decode_uint 4 ;;
  dret (mk_utime sec nsec).

(* ================================================================== *)
(** * build_token *)

Fixpoint upd (k : bytes) (i : nat) (c : ascii) : bytes :=
  match k, i with
  | [], _ => []
  | _ :: k', O => c :: k'
  | x :: k', S i' => x :: upd k' i' c
  end.

(** The loop of [build_token] over the key:
    [for (int i = 0; i < (int)key.length(); i++, s++) k[i % 20] |= *s;]
    with [n] the bound, [s] the characters from the pointer on. *)
Fixpoint key_loop (n : Z) (i : nat) (s : bytes) (k : bytes) : bytes :=
  match s with
  | [] => k
  | c :: s' =>
      if Z.of_nat i <? n then
        let j := (i mod CEPH_CRYPTO_HMACSHA1_DIGESTSIZE)%nat in
        key_loop n (S i) s' (upd k j (byte_or (nth j k NUL) c))
      else k
  end.

(** Lines 25-30 of [build_token]: the MAC key made from the secret. *)
Definition derive_key (key : bytes) : bytes :=
  let k := repeat NUL CEPH_CRYPTO_HMACSHA1_DIGESTSIZE in
  key_loop (int_of_size_t (Z.of_nat (length key))) 0 key k.

(** [bl] is passed by reference and appended to: the result is the
    return code and the buffer left behind. The hex dump of lines 21-23
    only feeds the log. *)
Definition build_token (os_user key : bytes) (nonce : Z)
    (expiration : utime_t) (bl : bytes) : Z * bytes :=
  let bl := encode_string os_user bl in
  let bl := encode_u64 nonce bl in
  let bl := encode_utime expiration bl in
  let k := derive_key key in
  let p := calc_hmac_sha1 k bl in
  (0, bl ++ p).

(* ================================================================== *)
(** * encode_token *)

(** [get_random_bytes] is the outcome of the draw from the random source:
    its return code and the nonce it wrote; [ceph_clock_now] is the
    reading of the clock. *)
Definition encode_token (get_random_bytes : Z * Z) (ceph_clock_now : utime_t)
    (os_user key : bytes) (bl : bytes) : Z * bytes :=
  let '(ret, nonce) := get_random_bytes in
  if ret <? 0 then (ret, bl)
  else
    let expiration := ceph_clock_now in
    let expiration := utime_add expiration RGW_SWIFT_TOKEN_EXPIRATION in
    build_token os_user key nonce expiration bl.

Definition AUTH_rgwtk : bytes := list_ascii_of_string "AUTH_rgwtk".

(** The token string that [RGW_SWIFT_Auth_Get::execute] prints in the
    X-Storage-Token header: ["AUTH_rgwtk%s"] of the hex of the buffer. *)
Definition storage_token (bl : bytes) : bytes :=
  AUTH_rgwtk ++ buf_to_hex bl.

(* ================================================================== *)
(** * rgw_swift_verify_signed_token *)

Record RGWUserInfo : Type := mk_info { swift_name : bytes; swift_key : bytes }.

(** The characters of a C string: those before the first NUL. *)
Fixpoint c_str (s : bytes) : bytes :=
  match s with
  | [] => []
  | c :: s' => if Ascii.eqb c NUL then [] else c :: c_str s'
  end.

Definition strlen (s : bytes) : Z := Z.of_nat (length (c_str s)).

(** [strncmp(a, b, n) == 0] *)
Definition strncmp_eq (a b : bytes) (n : nat) : bool :=
  bytes_eqb (firstn n (c_str a)) (firstn n (c_str b)).

(** [memcmp(a, b, n) == 0] *)
Definition memcmp_eq (a b : bytes) (n : nat) : bool :=
  bytes_eqb (firstn n a) (firstn n b).

Definition decode_payload : decoder (bytes * Z * utime_t) :=
  os_user <- decode_string ;;
  nonce <- decode_uint 8 ;;
  expiration <- decode_utime ;;
  dret (os_user, nonce, expiration).

(** The account store: [rgw_get_user_info_by_swift(os_user, info)] gives
    a return code and the [info] it leaves behind. *)
Definition account_store : Type := bytes -> RGWUserInfo -> Z * RGWUserInfo.

(** [token] is the C string handed in; [info] is passed by reference, so
    the result is the return code and the [info] left behind. The buffer
    [p] holds the bytes that [hex_to_buf] wrote. *)
Definition rgw_swift_verify_signed_token
    (rgw_get_user_info_by_swift : account_store) (ceph_clock_now : utime_t)
    (token : bytes) (info : RGWUserInfo) : Z * RGWUserInfo :=
  if negb (strncmp_eq token AUTH_rgwtk 10) then (- EINVAL, info)
  else
    let token := skipn 10 token in
    let len := int_of_size_t (strlen token) in
    if negb (Z.land len 1 =? 0) then (- EINVAL, info)
    else
      let '(ret, p) := hex_to_buf (c_str token) in
      if ret <? 0 then (ret, info)
      else
        let bl := p in
        match decode_payload bl with
        | None => (- EINVAL, info)
        | Some ((os_user, nonce, expiration), _) =>
            if utime_lt expiration ceph_clock_now then (- EPERM, info)
            else
              let '(ret, info) := rgw_get_user_info_by_swift os_user info in
              if ret <? 0 then (ret, info)
              else
                let '(ret, tok) :=
                  build_token os_user (swift_key info) nonce expiration [] in
                if ret <? 0 then (ret, info)
                else if negb (length tok =? length bl)%nat then (- EPERM, info)
                else if negb (memcmp_eq tok bl (length tok)) then
                  (- EPERM, info)
                else (0, info)
        end.

(** Lines 76-117 of [rgw_swift_verify_signed_token] on their own: the
    checks made once the token has been turned into the buffer [bl]. *)
Definition verify_buffer
    (rgw_get_user_info_by_swift : account_store) (ceph_clock_now : utime_t)
    (bl : bytes) (info : RGWUserInfo) : Z * RGWUserInfo :=
  match decode_payload bl with
  | None => (- EINVAL, info)
  | Some ((os_user, nonce, expiration), _) =>
      if utime_lt expiration ceph_clock_now then (- EPERM, info)
      else
        let '(ret, info) := rgw_get_user_info_by_swift os_user info in
        if ret <? 0 then (ret, info)
        else
          let '(ret, tok) :=
            build_token os_user (swift_key info) nonce expiration [] in
          if ret <? 0 then (ret, info)
          else if negb (length tok =? length bl)%nat then (- EPERM, info)
          else if negb (memcmp_eq tok bl (length tok)) then (- EPERM, info)
          else (0, info)
  end.

(** The serialized payload: what the three [::encode] calls of
    [build_token] append to an empty buffer. *)
Definition payload_bytes (os_user : bytes) (nonce : Z) (expiration : utime_t)
    : bytes :=
  encode_utime expiration (encode_u64 nonce (encode_string os_user [])).

(** The MAC that [build_token] appends for this payload under [key]. *)
Definition token_mac (key os_user : bytes) (nonce : Z) (expiration : utime_t)
    : bytes :=
  calc_hmac_sha1 (derive_key key) (payload_bytes os_user nonce expiration).

(** The expiration as the verifier reads it back from the token. *)
Definition wire_time (e : utime_t) : utime_t :=
  mk_utime (tv_sec e mod 2 ^ 64) (tv_nsec e mod 2 ^ 32).

(** The key derivation in the words of its description: start from
    zeros and, for each index [i] of the secret, OR [secret[i]] into
    [output[i mod digest_size]]. [or_step] is the step at index [i]. *)
Definition or_step (secret : bytes) (out : bytes) (i : nat) : bytes :=
  let j := (i mod CEPH_CRYPTO_HMACSHA1_DIGESTSIZE)%nat in
  upd out j (byte_or (nth j out NUL) (nth i secret NUL)).

Definition derive_spec (secret : bytes) : bytes :=
  fold_left (or_step secret) (seq 0 (length secret))
    (repeat NUL CEPH_CRYPTO_HMACSHA1_DIGESTSIZE).

(** Bit [b] of byte [j] of the derived key, in closed form: set exactly
    when some [secret[i]] with [i mod digest_size = j] has it set. *)
Definition derived_bit (secret : bytes) (j : nat) (b : Z) : bool :=
  existsb
    (fun i =>
       (i mod CEPH_CRYPTO_HMACSHA1_DIGESTSIZE =? j)%nat
       && Z.testbit (Z_of_byte (nth i secret NUL)) b)
    (seq 0 (length secret)).

(* ================================================================== *)
(** * RGW_SWIFT_Auth_Get::execute *)

Definition LF : ascii := byte_of_Z 10.
Definition CR : ascii := byte_of_Z 13.

(** The four variables that [execute] reads from the request
    environment; [None] is the null pointer [env->get] returns for a
    variable that is not set. *)
Record req_env : Type := mk_env {
  HTTP_X_AUTH_KEY : option bytes;
  HTTP_X_AUTH_USER : option bytes;
  RGW_SWIFT_URL_PREFIX : option bytes;
  RGW_SWIFT_URL : option bytes
}.

(** ["X-Storage-Url: %s/%s/v1/AUTH_rgw\n"] *)
Definition storage_url_header (os_url url_prefix : bytes) : bytes :=
  bytes_of_string "X-Storage-Url: " ++ c_str os_url ++ bytes_of_string "/"
    ++ c_str url_prefix ++ bytes_of_string "/v1/AUTH_rgw" ++ [LF].

(** ["X-Storage-Token: AUTH_rgwtk%s\n"] of the hex of the buffer. *)
Definition storage_token_header (bl : bytes) : bytes :=
  bytes_of_string "X-Storage-Token: " ++ storage_token bl ++ [LF].

(** [s.compare(cstr) == 0] for a [std::string] and a C string. *)
Definition string_compare_eq (s cstr : bytes) : bool :=
  bytes_eqb s (c_str cstr).

(** The calls that [execute] makes on the request state [s]. What
    [set_req_state_err], [dump_errno] and [end_header] (rgw_rest.cc) write
    to the client is theirs; here they are recorded as calls. *)
Inductive rest_call : Type :=
  | CGI_PRINTF (text : bytes)
  | set_req_state_err (ret : Z)
  | dump_errno
  | end_header.

(** The three calls under the label [done:]. *)
Definition closing_calls (ret : Z) : list rest_call :=
  [set_req_state_err ret; dump_errno; end_header].

(** [RGW_SWIFT_Auth_Get::execute]. The result is the final [ret] and the
    calls made on [s], in order: the [CGI_PRINTF]s of the path taken and
    then the calls under [done:], which every path reaches. [None] stands
    for [string user_str = user] with a null [user]: the construction of
    a [std::string] from a null pointer comes before every check and has
    no defined result. *)
Definition RGW_SWIFT_Auth_Get_execute
    (rgw_get_user_info_by_swift : account_store) (get_random_bytes : Z * Z)
    (ceph_clock_now : utime_t) (env : req_env)
    : option (Z * list rest_call) :=
  let key := HTTP_X_AUTH_KEY env in
  let user := HTTP_X_AUTH_USER env in
  let url_prefix := RGW_SWIFT_URL_PREFIX env in
  let os_url := RGW_SWIFT_URL env in
  let done (ret : Z) (printed : list rest_call) :=
    Some (ret, printed ++ closing_calls ret) in
  match user with
  | None => None
  | Some user =>
      let user_str := c_str user in
      let info := mk_info [] [] in
      let bl := [] in
      match os_url, url_prefix with
      | Some os_url, Some url_prefix =>
          match key with
          | None => done (- EPERM) []
          | Some key =>
              let '(ret, info) := rgw_get_user_info_by_swift user_str info in
              if ret <? 0 then done ret []
              else if negb (string_compare_eq (swift_key info) key) then
                done (- EPERM) []
              else
                let out :=
                  [CGI_PRINTF (storage_url_header os_url url_prefix)] in
                let '(ret, bl) :=
                  encode_token get_random_bytes ceph_clock_now
                    (swift_name info) (swift_key info) bl in
                if ret <? 0 then done ret out
                else done 204 (out ++ [CGI_PRINTF (storage_token_header bl)])
          end
      | _, _ => done (- EINVAL) []
      end
  end.

(* ================================================================== *)
(** * rbd: names on the command line (src/rbd.cc) *)

(** A [char*] is the list of the bytes from the pointer on; the string it
    denotes is its [c_str]. [strchr] and [strrchr], for a character other
    than NUL, give the offset of the first and of the last occurrence in
    the string, [None] for the null pointer. *)
Fixpoint strchr (s : bytes) (c : ascii) : option nat :=
  match s with
  | [] => None
  | x :: s' =>
      if Ascii.eqb x NUL then None
      else if Ascii.eqb x c then Some O
      else option_map S (strchr s' c)
  end.

Fixpoint strrchr (s : bytes) (c : ascii) : option nat :=
  match s with
  | [] => None
  | x :: s' =>
      if Ascii.eqb x NUL then None
      else
        match strrchr s' c with
        | Some i => Some (S i)
        | None => if Ascii.eqb x c then Some O else None
        end
  end.

(** [strdup]: a fresh buffer holding the characters of the string. *)
Definition strdup (s : bytes) : bytes := c_str s.

Definition imgname_from_path (path : bytes) : bytes :=
  match strrchr path "/" with
  | Some i => skipn (S i) path
  | None => path
  end.

(** [update_snap_name(imgname, snap)]: [imgname] is written to; [snap]
    is [None] for a null [char **], else the current [*snap]. The result
    is the buffer of [imgname] and [snap] afterwards. *)
Definition update_snap_name (imgname : bytes) (snap : option (option bytes))
    : bytes * option (option bytes) :=
  match strrchr imgname "@" with
  | None => (imgname, snap)
  | Some i =>
      let imgname' := upd imgname i NUL in
      match snap with
      | None => (imgname', None)
      | Some cur =>
          let s := skipn (S i) imgname in
          if negb (Ascii.eqb (nth 0 s NUL) NUL) then (imgname', Some (Some s))
          else (imgname', Some cur)
      end
  end.

(** [set_pool_image_name]: [new_pool], [new_img] are the current [*new_pool]
    and [*new_img], [snap] as for [update_snap_name]; the result is the
    three afterwards. *)
Definition set_pool_image_name (orig_pool orig_img : option bytes)
    (new_pool new_img : option bytes) (snap : option (option bytes))
    : option bytes * option bytes * option (option bytes) :=
  match orig_pool with
  | Some _ => (new_pool, new_img, snap)
  | None =>
      match orig_img with
      | None => (new_pool, new_img, snap)
      | Some orig_img =>
          match strchr orig_img "/" with
          | None =>
              let '(img, snap) := update_snap_name (strdup orig_img) snap in
              (new_pool, Some img, snap)
          | Some j =>
              (* the second [strchr], on the copy, finds the same offset *)
              let pool := strdup orig_img in
              let img := strdup (skipn (S j) pool) in
              let pool := upd pool j NUL in
              let '(img, snap) := update_snap_name img snap in
              (Some pool, Some img, snap)
          end
      end
  end.

Inductive opt_cmd : Type :=
  | OPT_NO_CMD | OPT_LIST | OPT_INFO | OPT_CREATE | OPT_CLONE | OPT_FLATTEN
  | OPT_CHILDREN | OPT_RESIZE | OPT_RM | OPT_EXPORT | OPT_IMPORT | OPT_COPY
  | OPT_RENAME | OPT_SNAP_CREATE | OPT_SNAP_ROLLBACK | OPT_SNAP_REMOVE
  | OPT_SNAP_LIST | OPT_SNAP_PURGE | OPT_SNAP_PROTECT | OPT_SNAP_UNPROTECT
  | OPT_WATCH | OPT_MAP | OPT_UNMAP | OPT_SHOWMAPPED | OPT_LOCK_LIST
  | OPT_LOCK_ADD | OPT_LOCK_REMOVE | OPT_BENCH_WRITE.

(** [strcmp(a, b) == 0] against a literal. *)
Definition is_cmd (a : bytes) (b : string) : bool :=
  bytes_eqb (c_str a) (bytes_of_string b).

Definition get_cmd (cmd : bytes) (snapcmd lockcmd : bool) : opt_cmd :=
  if negb snapcmd && negb lockcmd then
    if is_cmd cmd "ls" || is_cmd cmd "list" then OPT_LIST
    else if is_cmd cmd "info" then OPT_INFO
    else if is_cmd cmd "create" then OPT_CREATE
    else if is_cmd cmd "clone" then OPT_CLONE
    else if is_cmd cmd "flatten" then OPT_FLATTEN
    else if is_cmd cmd "children" then OPT_CHILDREN
    else if is_cmd cmd "resize" then OPT_RESIZE
    else if is_cmd cmd "rm" then OPT_RM
    else if is_cmd cmd "export" then OPT_EXPORT
    else if is_cmd cmd "import" then OPT_IMPORT
    else if is_cmd cmd "copy" || is_cmd cmd "cp" then OPT_COPY
    else if is_cmd cmd "rename" || is_cmd cmd "mv" then OPT_RENAME
    else if is_cmd cmd "watch" then OPT_WATCH
    else if is_cmd cmd "map" then OPT_MAP
    else if is_cmd cmd "showmapped" then OPT_SHOWMAPPED
    else if is_cmd cmd "unmap" then OPT_UNMAP
    else if is_cmd cmd "bench-write" then OPT_BENCH_WRITE
    else OPT_NO_CMD
  else if snapcmd then
    if is_cmd cmd "create" || is_cmd cmd "add" then OPT_SNAP_CREATE
    else if is_cmd cmd "rollback" || is_cmd cmd "revert" then
      OPT_SNAP_ROLLBACK
    else if is_cmd cmd "remove" || is_cmd cmd "rm" then OPT_SNAP_REMOVE
    else if is_cmd cmd "ls" || is_cmd cmd "list" then OPT_SNAP_LIST
    else if is_cmd cmd "purge" then OPT_SNAP_PURGE
    else if is_cmd cmd "protect" then OPT_SNAP_PROTECT
    else if is_cmd cmd "unprotect" then OPT_SNAP_UNPROTECT
    else OPT_NO_CMD
  else
    if is_cmd cmd "ls" || is_cmd cmd "list" then OPT_LOCK_LIST
    else if is_cmd cmd "add" then OPT_LOCK_ADD
    else if is_cmd cmd "remove" || is_cmd cmd "rm" then OPT_LOCK_REMOVE
    else OPT_NO_CMD.

Definition is_snap_cmd (c : opt_cmd) : bool :=
  match c with
  | OPT_SNAP_CREATE | OPT_SNAP_ROLLBACK | OPT_SNAP_REMOVE | OPT_SNAP_LIST
  | OPT_SNAP_PURGE | OPT_SNAP_PROTECT | OPT_SNAP_UNPROTECT => true
  | _ => false
  end.

Definition is_lock_cmd (c : opt_cmd) : bool :=
  match c with
  | OPT_LOCK_LIST | OPT_LOCK_ADD | OPT_LOCK_REMOVE => true
  | _ => false
  end.

(** [set_conf_param(param, var1, var2)]: [var1] is the current [*var1];
    [var2] is [None] for a null [var2], else the current [*var2]. *)
Definition set_conf_param (param : bytes) (var1 : option bytes)
    (var2 : option (option bytes)) : option bytes * option (option bytes) :=
  match var1 with
  | None => (Some param, var2)
  | Some _ =>
      match var2 with
      | Some None => (var1, Some (Some param))
      | _ => (var1, var2)
      end
  end.

(** The loop of [main] over the positional arguments for a command that
    takes two of them (OPT_EXPORT, OPT_IMPORT, OPT_COPY, OPT_RENAME):
    [set_conf_param(v, &var1, &var2)] for each [v] in turn. *)
Definition positional_args (args : list bytes) (var1 var2 : option bytes)
    : option bytes * option bytes :=
  fold_left
    (fun vars v =>
       match set_conf_param v (fst vars) (Some (snd vars)) with
       | (v1, Some v2) => (v1, v2)
       | (v1, None) => (v1, snd vars)
       end)
    args (var1, var2).

(* ================================================================== *)
(** * rbd: MyProgressContext *)

Record MyProgressContext : Type := mk_progress {
  operation : bytes;
  last_pc : Z
}.

Definition decimal (n : Z) : bytes :=
  bytes_of_string (DecimalString.NilZero.string_of_int (Z.to_int n)).

(** [update_progress(offset, total)] on 64-bit unsigned [offset] and
    [total]: the return code, the context afterwards and what was
    written to [cout], if anything. *)
Definition update_progress (ctx : MyProgressContext) (offset total : Z)
    : Z * MyProgressContext * option bytes :=
  let pc :=
    int_of_size_t
      (if total =? 0 then 0 else ((offset * 100) mod 2 ^ 64) / total) in
  if negb (pc =? last_pc ctx) then
    (0, mk_progress (operation ctx) pc,
     Some (CR :: operation ctx ++ bytes_of_string ": " ++ decimal pc
             ++ bytes_of_string "% complete..."))
  else (0, ctx, None).

(* ================================================================== *)
(** * A concrete scenario *)

Module Scenario.

Definition alice : bytes := bytes_of_string "alice".
Definition s3cr3t : bytes := bytes_of_string "s3cr3t".
Definition other_secret : bytes := bytes_of_string "other-secret".

(** Two distinct secrets that differ by one appended character, which
    repeats the character 20 places before it. *)
Definition secretA : bytes := bytes_of_string "0123456789abcdefghij".
Definition secretB : bytes := bytes_of_string "0123456789abcdefghij0".

Definition T0 : utime_t := mk_utime 1300000000 500.
Definition nonce0 : Z := 0x1122334455667788.
Definition no_info : RGWUserInfo := mk_info [] [].

Definition ENOENT : Z := 2.

(** An account store that knows [alice] with the given key and answers
    [-ENOENT] for any other name. *)
Definition store (key : bytes) : account_store :=
  fun os_user info =>
    if bytes_eqb os_user alice then (0, mk_info alice key)
    else (- ENOENT, info).

(** The buffer and the token string made for [alice] at [T0]. *)
Definition token_bl (key : bytes) : bytes :=
  snd (encode_token (0, nonce0) T0 alice key []).

Definition token (key : bytes) : bytes := storage_token (token_bl key).

(** The same for a user the store does not know. *)
Definition bob : bytes := bytes_of_string "bob".
Definition bob_token : bytes :=
  storage_token (snd (encode_token (0, nonce0) T0 bob s3cr3t [])).

End Scenario.

(* ================================================================== *)
(** * Concrete requests and command lines *)

Module Examples.

Definition env : req_env :=
  mk_env (Some Scenario.s3cr3t) (Some Scenario.alice)
    (Some (bytes_of_string "swift"))
    (Some (bytes_of_string "http://gw.example.com")).

Definition env_bad_key : req_env :=
  mk_env (Some Scenario.other_secret) (Some Scenario.alice)
    (Some (bytes_of_string "swift"))
    (Some (bytes_of_string "http://gw.example.com")).

Definition env_no_url : req_env :=
  mk_env (Some Scenario.s3cr3t) (Some Scenario.alice)
    (Some (bytes_of_string "swift")) None.

Definition env_no_key : req_env :=
  mk_env None (Some Scenario.alice) (Some (bytes_of_string "swift"))
    (Some (bytes_of_string "http://gw.example.com")).

Definition env_unknown_user : req_env :=
  mk_env (Some Scenario.s3cr3t) (Some Scenario.bob)
    (Some (bytes_of_string "swift"))
    (Some (bytes_of_string "http://gw.example.com")).

Definition url_header : bytes :=
  storage_url_header (bytes_of_string "http://gw.example.com")
    (bytes_of_string "swift").

Definition pool_image_snap : bytes := bytes_of_string "rbd/vm1@monday".
Definition some_path : bytes := bytes_of_string "/var/tmp/disk.img".

End Examples.

(* ================================================================== *)
(** * Test vectors *)

Example sha1_abc :
  buf_to_hex (SHA1.digest (bytes_of_string "abc"))
  = bytes_of_string "a9993e364706816aba3e25717850c26c9cd0d89d".
Proof. vm_compute. reflexivity. Qed.

Example sha1_two_blocks :
  buf_to_hex (SHA1.digest (bytes_of_string
    "abcdbcdecdefdefgefghfghighijhijkijkljklmklmnlmnomnopnopq"))
  = bytes_of_string "84983e441c3bd26ebaae4aa1f95129e5e54670f1".
Proof. vm_compute. reflexivity. Qed.

Example hmac_sha1_rfc2202_2 :
  buf_to_hex (calc_hmac_sha1 (bytes_of_string "Jefe")
                (bytes_of_string "what do ya want for nothing?"))
  = bytes_of_string "effcdf6ae5eb2fa2d27416d5f184df9c259a7c79".
Proof. vm_compute. reflexivity. Qed.

(* ================================================================== *)
(** * Bytes *)

Lemma Z_of_byte_range (c : ascii) : 0 <= Z_of_byte c < 256.
Proof.
  unfold Z_of_byte. pose proof (N_ascii_bounded c). lia.
Qed.

Lemma byte_of_Z_of_byte (c : ascii) : byte_of_Z (Z_of_byte c) = c.
Proof.
  unfold byte_of_Z. rewrite Z.mod_small by apply Z_of_byte_range.
  unfold Z_of_byte. rewrite N2Z.id. apply ascii_N_embedding.
Qed.

Lemma Z_of_byte_of_Z (z : Z) : Z_of_byte (byte_of_Z z) = z mod 256.
Proof.
  unfold Z_of_byte, byte_of_Z.
  assert (0 <= z mod 256 < 256) by (apply Z.mod_pos_bound; lia).
  rewrite N_ascii_embedding by lia. lia.
Qed.

Lemma byte_of_Z_mod (z : Z) : byte_of_Z (z mod 256) = byte_of_Z z.
Proof. unfold byte_of_Z. now rewrite Z.mod_mod by lia. Qed.

Lemma bytes_eqb_eq (a b : bytes) : bytes_eqb a b = true <-> a = b.
Proof.
  unfold bytes_eqb. destruct (list_eq_dec ascii_dec a b); split; congruence.
Qed.

Lemma bytes_eqb_refl (a : bytes) : bytes_eqb a a = true.
Proof. now apply bytes_eqb_eq. Qed.

Lemma bytes_eqb_neq (a b : bytes) : bytes_eqb a b = false <-> a <> b.
Proof.
  unfold bytes_eqb. destruct (list_eq_dec ascii_dec a b); split; congruence.
Qed.

Lemma int_of_size_t_small (n : Z) : 0 <= n <= INT_MAX -> int_of_size_t n = n.
Proof.
  unfold int_of_size_t, INT_MAX. intros H.
  rewrite Z.mod_small by lia.
  destruct (Z.ltb_spec n (2 ^ 31)); lia.
Qed.

Lemma land_1_even (k : Z) : Z.land (2 * k) 1 = 0.
Proof.
  replace (Z.land (2 * k) 1) with ((2 * k) mod 2 ^ 1)
    by (symmetry; apply (Z.land_ones (2 * k) 1); lia).
  rewrite Z.mul_comm. apply Z.mod_mul. lia.
Qed.

(* ================================================================== *)
(** * Little-endian integers *)

Lemma encode_le_length (w : nat) (n : Z) : length (encode_le w n) = w.
Proof. revert n. induction w; intros; simpl; auto. Qed.

Lemma decode_le_range (l : bytes) :
  0 <= decode_le l < 256 ^ Z.of_nat (length l).
Proof.
  induction l as [|c l IH].
  - simpl. lia.
  - cbn [decode_le length]. rewrite Nat2Z.inj_succ, Z.pow_succ_r by lia.
    pose proof (Z_of_byte_range c). lia.
Qed.

Lemma decode_encode_le (w : nat) (n : Z) :
  decode_le (encode_le w n) = n mod 256 ^ Z.of_nat w.
Proof.
  revert n. induction w as [|w IH]; intros n.
  - simpl. now rewrite Z.mod_1_r.
  - cbn [encode_le decode_le]. rewrite Z_of_byte_of_Z, IH.
    rewrite Nat2Z.inj_succ, Z.pow_succ_r by lia.
    rewrite Z.rem_mul_r by lia. reflexivity.
Qed.

Lemma encode_decode_le (l : bytes) : encode_le (length l) (decode_le l) = l.
Proof.
  induction l as [|c l IH]; [reflexivity|].
  cbn [length encode_le decode_le].
  pose proof (Z_of_byte_range c).
  f_equal.
  - rewrite <- byte_of_Z_mod.
    replace ((Z_of_byte c + 256 * decode_le l) mod 256) with (Z_of_byte c).
    + apply byte_of_Z_of_byte.
    + rewrite (Z.mul_comm 256), Z.mod_add by lia.
      now rewrite Z.mod_small.
  - replace ((Z_of_byte c + 256 * decode_le l) / 256) with (decode_le l);
      [exact IH|].
    rewrite (Z.mul_comm 256), Z.div_add by lia.
    rewrite Z.div_small by lia. lia.
Qed.

Lemma encode_le_mod (w : nat) (n : Z) :
  encode_le w (n mod 256 ^ Z.of_nat w) = encode_le w n.
Proof.
  rewrite <- decode_encode_le.
  rewrite <- (encode_le_length w n) at 1.
  apply encode_decode_le.
Qed.

(* ================================================================== *)
(** * Hex *)

Lemma buf_to_hex_length (b : bytes) :
  length (buf_to_hex b) = (2 * length b)%nat.
Proof. induction b; simpl; lia. Qed.

Lemma hexdigit_hex_char (d : Z) : 0 <= d < 16 -> hexdigit (hex_char d) = d.
Proof.
  intros H.
  assert (d = 0 \/ d = 1 \/ d = 2 \/ d = 3 \/ d = 4 \/ d = 5 \/ d = 6
          \/ d = 7 \/ d = 8 \/ d = 9 \/ d = 10 \/ d = 11 \/ d = 12
          \/ d = 13 \/ d = 14 \/ d = 15) as D by lia.
  repeat (destruct D as [->|D]; [reflexivity|]). now subst.
Qed.

Lemma hex_char_not_NUL (d : Z) :
  0 <= d < 16 -> Ascii.eqb (hex_char d) NUL = false.
Proof.
  intros H.
  assert (d = 0 \/ d = 1 \/ d = 2 \/ d = 3 \/ d = 4 \/ d = 5 \/ d = 6
          \/ d = 7 \/ d = 8 \/ d = 9 \/ d = 10 \/ d = 11 \/ d = 12
          \/ d = 13 \/ d = 14 \/ d = 15) as D by lia.
  repeat (destruct D as [->|D]; [reflexivity|]). now subst.
Qed.

Lemma nibbles (c : ascii) :
  0 <= Z_of_byte c / 16 < 16 /\ 0 <= Z_of_byte c mod 16 < 16
  /\ Z_of_byte c / 16 * 16 + Z_of_byte c mod 16 = Z_of_byte c.
Proof.
  pose proof (Z_of_byte_range c).
  pose proof (Z.div_mod (Z_of_byte c) 16).
  pose proof (Z.mod_pos_bound (Z_of_byte c) 16).
  assert (0 <= Z_of_byte c / 16) by (apply Z.div_pos; lia).
  assert (Z_of_byte c / 16 < 16) by (apply Z.div_lt_upper_bound; lia).
  lia.
Qed.

Lemma hex_to_buf_to_hex (b : bytes) :
  hex_to_buf (buf_to_hex b) = (Z.of_nat (length b), b).
Proof.
  induction b as [|c b IH]; [reflexivity|].
  cbn [buf_to_hex hex_to_buf].
  destruct (nibbles c) as (Hh & Hl & Hc).
  rewrite !hexdigit_hex_char by assumption.
  destruct (Z.ltb_spec (Z_of_byte c / 16) 0); [lia|].
  destruct (Z.ltb_spec (Z_of_byte c mod 16) 0); [lia|].
  cbn [orb]. rewrite IH.
  destruct (Z.ltb_spec (Z.of_nat (length b)) 0); [lia|].
  rewrite Hc, byte_of_Z_of_byte. f_equal.
  cbn [length]. lia.
Qed.

Lemma c_str_buf_to_hex (b : bytes) : c_str (buf_to_hex b) = buf_to_hex b.
Proof.
  induction b as [|c b IH]; [reflexivity|].
  cbn [buf_to_hex c_str].
  destruct (nibbles c) as (Hh & Hl & _).
  rewrite !hex_char_not_NUL by assumption. now rewrite IH.
Qed.

(* ================================================================== *)
(** * Payload codec *)

Lemma copy_out_app (a r : bytes) : copy_out (length a) (a ++ r) = Some (a, r).
Proof.
  unfold copy_out. rewrite length_app.
  destruct (Nat.leb_spec (length a) (length a + length r)); [|lia].
  rewrite firstn_app, Nat.sub_diag, firstn_all, firstn_O, app_nil_r.
  rewrite skipn_app, Nat.sub_diag, skipn_all, skipn_O. reflexivity.
Qed.

Lemma copy_out_inv (n : nat) (it a r : bytes) :
  copy_out n it = Some (a, r) -> it = a ++ r /\ length a = n.
Proof.
  unfold copy_out. destruct (Nat.leb_spec n (length it)); [|discriminate].
  intros E. inversion E; subst. split.
  - symmetry. apply firstn_skipn.
  - apply firstn_length_le. assumption.
Qed.

Lemma decode_uint_app (w : nat) (n : Z) (r : bytes) :
  decode_uint w (encode_le w n ++ r) = Some (n mod 256 ^ Z.of_nat w, r).
Proof.
  unfold decode_uint, dbind, dret.
  rewrite <- (encode_le_length w n) at 1.
  rewrite copy_out_app, decode_encode_le. reflexivity.
Qed.

Lemma decode_uint_inv (w : nat) (it : bytes) (v : Z) (r : bytes) :
  decode_uint w it = Some (v, r) ->
  it = encode_le w v ++ r /\ 0 <= v < 256 ^ Z.of_nat w.
Proof.
  unfold decode_uint, dbind, dret.
  destruct (copy_out w it) as [[a r']|] eqn:E; [|discriminate].
  intros H. inversion H; subst.
  apply copy_out_inv in E. destruct E as [-> <-].
  rewrite encode_decode_le. split; [reflexivity|apply decode_le_range].
Qed.

Lemma encode_string_nil (s : bytes) :
  Z.of_nat (length s) < 2 ^ 32 ->
  encode_string s [] = encode_le 4 (Z.of_nat (length s)) ++ s.
Proof.
  intros H. unfold encode_string.
  rewrite Z.mod_small by lia. rewrite Nat2Z.id, firstn_all. reflexivity.
Qed.

Lemma decode_string_app (s r : bytes) :
  Z.of_nat (length s) < 2 ^ 32 ->
  decode_string (encode_string s [] ++ r) = Some (s, r).
Proof.
  intros H. rewrite encode_string_nil by assumption.
  unfold decode_string, dbind. rewrite <- app_assoc, decode_uint_app.
  change (256 ^ Z.of_nat 4) with (2 ^ 32).
  rewrite Z.mod_small by lia. rewrite Nat2Z.id. apply copy_out_app.
Qed.

Lemma decode_string_inv (it s r : bytes) :
  decode_string it = Some (s, r) ->
  it = encode_string s [] ++ r /\ Z.of_nat (length s) < 2 ^ 32.
Proof.
  unfold decode_string, dbind.
  destruct (decode_uint 4 it) as [[len it']|] eqn:E; [|discriminate].
  intros H. apply decode_uint_inv in E. destruct E as [-> R].
  apply copy_out_inv in H. destruct H as [-> L].
  change (256 ^ Z.of_nat 4) with (2 ^ 32) in R.
  assert (Z.of_nat (length s) = len) as <- by lia.
  rewrite encode_string_nil by lia.
  rewrite <- app_assoc. split; [reflexivity|lia].
Qed.

Lemma payload_bytes_eq (u : bytes) (n : Z) (e : utime_t) :
  payload_bytes u n e
  = encode_string u [] ++ encode_le 8 n
      ++ encode_le 8 (tv_sec e) ++ encode_le 4 (tv_nsec e).
Proof.
  unfold payload_bytes, encode_utime, encode_u64.
  now rewrite <- !app_assoc.
Qed.

Lemma payload_bytes_length (u : bytes) (n : Z) (e : utime_t) :
  Z.of_nat (length u) < 2 ^ 32 ->
  length (payload_bytes u n e) = (24 + length u)%nat.
Proof.
  intros H. rewrite payload_bytes_eq, encode_string_nil by assumption.
  rewrite !length_app, !encode_le_length. lia.
Qed.

Lemma decode_payload_app (u : bytes) (n : Z) (e : utime_t) (r : bytes) :
  Z.of_nat (length u) < 2 ^ 32 ->
  decode_payload (payload_bytes u n e ++ r)
  = Some ((u, n mod 2 ^ 64,
           mk_utime (tv_sec e mod 2 ^ 64) (tv_nsec e mod 2 ^ 32)), r).
Proof.
  intros H. rewrite payload_bytes_eq.
  unfold decode_payload, decode_utime, dbind, dret.
  rewrite <- !app_assoc, decode_string_app by assumption.
  rewrite !decode_uint_app. reflexivity.
Qed.

Lemma decode_payload_inv (bl u : bytes) (n : Z) (e : utime_t) (r : bytes) :
  decode_payload bl = Some ((u, n, e), r) ->
  bl = payload_bytes u n e ++ r /\ Z.of_nat (length u) < 2 ^ 32.
Proof.
  unfold decode_payload, decode_utime, dbind, dret.
  destruct (decode_string bl) as [[u' it1]|] eqn:E1; [|discriminate].
  destruct (decode_uint 8 it1) as [[n' it2]|] eqn:E2; [|discriminate].
  destruct (decode_uint 8 it2) as [[sec it3]|] eqn:E3; [|discriminate].
  destruct (decode_uint 4 it3) as [[nsec it4]|] eqn:E4; [|discriminate].
  intros H. inversion H; subst.
  apply decode_string_inv in E1. destruct E1 as [-> L].
  apply decode_uint_inv in E2. destruct E2 as [-> _].
  apply decode_uint_inv in E3. destruct E3 as [-> _].
  apply decode_uint_inv in E4. destruct E4 as [-> _].
  rewrite payload_bytes_eq. cbn [tv_sec tv_nsec].
  rewrite <- !app_assoc. split; [reflexivity|assumption].
Qed.

(* ================================================================== *)
(** * The MAC and [build_token] *)

Lemma sha1_digest_length (msg : bytes) : length (SHA1.digest msg) = 20%nat.
Proof.
  unfold SHA1.digest.
  destruct (SHA1.blocks _ _ _) as [[[[h0 h1] h2] h3] h4].
  unfold encode_be. rewrite !length_app, !length_rev, !encode_le_length.
  reflexivity.
Qed.

Lemma calc_hmac_sha1_length (key msg : bytes) :
  length (calc_hmac_sha1 key msg) = CEPH_CRYPTO_HMACSHA1_DIGESTSIZE.
Proof. unfold calc_hmac_sha1, SHA1.hmac. apply sha1_digest_length. Qed.

Lemma build_token_nil (u key : bytes) (n : Z) (e : utime_t) :
  build_token u key n e []
  = (0, payload_bytes u n e ++ token_mac key u n e).
Proof. reflexivity. Qed.

(* ================================================================== *)
(** * The verifier *)

Section Verifier.

Variable store : account_store.
Variable now : utime_t.

(** A token that passes the prefix, parity and hex checks is judged on
    the buffer it decodes to. *)
Lemma verify_reaches_buffer (token bl : bytes) (ret : Z)
    (info : RGWUserInfo) :
  strncmp_eq token AUTH_rgwtk 10 = true ->
  Z.land (int_of_size_t (strlen (skipn 10 token))) 1 = 0 ->
  hex_to_buf (c_str (skipn 10 token)) = (ret, bl) ->
  0 <= ret ->
  rgw_swift_verify_signed_token store now token info
  = verify_buffer store now bl info.
Proof.
  intros Hp Hl Hh Hr. unfold rgw_swift_verify_signed_token.
  rewrite Hp, Hl, Hh. cbn [negb Z.eqb].
  destruct (Z.ltb_spec ret 0); [lia|]. reflexivity.
Qed.

Lemma storage_token_prefix (bl : bytes) :
  strncmp_eq (storage_token bl) AUTH_rgwtk 10 = true.
Proof.
  unfold strncmp_eq, storage_token.
  replace (c_str (AUTH_rgwtk ++ buf_to_hex bl))
    with (AUTH_rgwtk ++ c_str (buf_to_hex bl)) by reflexivity.
  apply bytes_eqb_eq. reflexivity.
Qed.

Lemma verify_storage_token (bl : bytes) (info : RGWUserInfo) :
  2 * Z.of_nat (length bl) <= INT_MAX ->
  rgw_swift_verify_signed_token store now (storage_token bl) info
  = verify_buffer store now bl info.
Proof.
  intros Hlen.
  apply verify_reaches_buffer with (ret := Z.of_nat (length bl)).
  - apply storage_token_prefix.
  - change (skipn 10 (storage_token bl)) with (buf_to_hex bl).
    unfold strlen. rewrite c_str_buf_to_hex, buf_to_hex_length.
    rewrite int_of_size_t_small by lia.
    rewrite Nat2Z.inj_mul. change (Z.of_nat 2) with 2.
    apply land_1_even.
  - change (skipn 10 (storage_token bl)) with (buf_to_hex bl).
    rewrite c_str_buf_to_hex. apply hex_to_buf_to_hex.
  - lia.
Qed.

(** Once the payload decodes, the token is current and the account is
    found, the verdict is the comparison of the bytes after the payload
    with the MAC under the account's key. *)
Lemma verify_buffer_decoded (bl u rest : bytes) (n : Z) (e : utime_t)
    (info info' : RGWUserInfo) (r : Z) :
  decode_payload bl = Some ((u, n, e), rest) ->
  utime_lt e now = false ->
  store u info = (r, info') ->
  0 <= r ->
  verify_buffer store now bl info
  = if bytes_eqb rest (token_mac (swift_key info') u n e)
    then (0, info') else (- EPERM, info').
Proof.
  intros Hd He Hs Hr. unfold verify_buffer. rewrite Hd, He, Hs.
  destruct (Z.ltb_spec r 0); [lia|].
  rewrite build_token_nil. cbn [Z.ltb Z.compare].
  apply decode_payload_inv in Hd. destruct Hd as [-> _].
  set (pl := payload_bytes u n e).
  set (mac := token_mac (swift_key info') u n e).
  destruct (bytes_eqb rest mac) eqn:E.
  - apply bytes_eqb_eq in E. subst rest.
    rewrite Nat.eqb_refl. unfold memcmp_eq. rewrite bytes_eqb_refl.
    reflexivity.
  - apply bytes_eqb_neq in E.
    destruct (Nat.eqb_spec (length (pl ++ mac)) (length (pl ++ rest)))
      as [L|L]; [|reflexivity].
    cbn [negb]. unfold memcmp_eq.
    rewrite L at 2. rewrite !firstn_all.
    destruct (bytes_eqb (pl ++ mac) (pl ++ rest)) eqn:E'; [|reflexivity].
    apply bytes_eqb_eq, app_inv_head in E'. congruence.
Qed.

End Verifier.

(* ================================================================== *)
(** * Tokens made by [build_token] *)

Lemma payload_bytes_canonical (u : bytes) (n : Z) (e : utime_t) :
  payload_bytes u (n mod 2 ^ 64)
    (mk_utime (tv_sec e mod 2 ^ 64) (tv_nsec e mod 2 ^ 32))
  = payload_bytes u n e.
Proof.
  rewrite !payload_bytes_eq. cbn [tv_sec tv_nsec].
  change (2 ^ 64) with (256 ^ Z.of_nat 8).
  change (2 ^ 32) with (256 ^ Z.of_nat 4).
  now rewrite !encode_le_mod.
Qed.

Lemma token_mac_canonical (key u : bytes) (n : Z) (e : utime_t) :
  token_mac key u (n mod 2 ^ 64)
    (mk_utime (tv_sec e mod 2 ^ 64) (tv_nsec e mod 2 ^ 32))
  = token_mac key u n e.
Proof. unfold token_mac. now rewrite payload_bytes_canonical. Qed.

Lemma built_token_length (u key : bytes) (n : Z) (e : utime_t) :
  Z.of_nat (length u) < 2 ^ 32 ->
  length (snd (build_token u key n e [])) = (44 + length u)%nat.
Proof.
  intros H. rewrite build_token_nil. cbn [snd].
  rewrite length_app, payload_bytes_length by assumption.
  unfold token_mac. rewrite calc_hmac_sha1_length.
  unfold CEPH_CRYPTO_HMACSHA1_DIGESTSIZE. lia.
Qed.

Section BuiltTokens.

Variable store : account_store.
Variable now : utime_t.
Variables (u key : bytes) (n : Z) (e : utime_t).
Hypothesis token_fits : 2 * (44 + Z.of_nat (length u)) <= INT_MAX.

Let bl := snd (build_token u key n e []).

Lemma built_token_decodes :
  decode_payload bl
  = Some ((u, n mod 2 ^ 64, wire_time e), token_mac key u n e).
Proof.
  subst bl. rewrite build_token_nil. cbn [snd].
  apply decode_payload_app. unfold INT_MAX in token_fits. lia.
Qed.

Lemma built_token_to_buffer (info : RGWUserInfo) :
  rgw_swift_verify_signed_token store now (storage_token bl) info
  = verify_buffer store now bl info.
Proof.
  apply verify_storage_token. subst bl.
  rewrite built_token_length; unfold INT_MAX in *; lia.
Qed.

Lemma built_token_expired (info : RGWUserInfo) :
  utime_lt (wire_time e) now = true ->
  rgw_swift_verify_signed_token store now (storage_token bl) info
  = (- EPERM, info).
Proof.
  intros He. rewrite built_token_to_buffer. unfold verify_buffer.
  rewrite built_token_decodes, He. reflexivity.
Qed.

Lemma built_token_verdict (info info' : RGWUserInfo) (r : Z) :
  utime_lt (wire_time e) now = false ->
  store u info = (r, info') ->
  0 <= r ->
  rgw_swift_verify_signed_token store now (storage_token bl) info
  = if bytes_eqb (token_mac key u n e) (token_mac (swift_key info') u n e)
    then (0, info') else (- EPERM, info').
Proof.
  intros He Hs Hr. rewrite built_token_to_buffer.
  rewrite (verify_buffer_decoded store now bl u (token_mac key u n e)
             (n mod 2 ^ 64) (wire_time e) info info' r
             built_token_decodes He Hs Hr).
  unfold wire_time. now rewrite token_mac_canonical.
Qed.

End BuiltTokens.

Lemma encode_token_ok (rnd nonce : Z) (t : utime_t) (u key bl : bytes) :
  0 <= rnd ->
  encode_token (rnd, nonce) t u key bl
  = build_token u key nonce (utime_add t RGW_SWIFT_TOKEN_EXPIRATION) bl.
Proof.
  intros H. unfold encode_token. destruct (Z.ltb_spec rnd 0); [lia|].
  reflexivity.
Qed.

Lemma wire_time_expiration (t : utime_t) :
  0 <= tv_sec t -> tv_sec t + RGW_SWIFT_TOKEN_EXPIRATION < 2 ^ 64 ->
  0 <= tv_nsec t < 2 ^ 32 ->
  wire_time (utime_add t RGW_SWIFT_TOKEN_EXPIRATION)
  = mk_utime (tv_sec t + RGW_SWIFT_TOKEN_EXPIRATION) (tv_nsec t).
Proof.
  intros H1 H2 H3. unfold wire_time, utime_add. cbn [tv_sec tv_nsec].
  unfold RGW_SWIFT_TOKEN_EXPIRATION in *.
  rewrite Z.mod_mod by lia. rewrite !Z.mod_small by lia. reflexivity.
Qed.

Lemma expiration_on_the_wire (t : utime_t) :
  0 <= tv_sec t -> tv_sec t + RGW_SWIFT_TOKEN_EXPIRATION < 2 ^ 64 ->
  0 <= tv_nsec t < 2 ^ 32 ->
  wire_time (utime_add t RGW_SWIFT_TOKEN_EXPIRATION)
  = utime_add t RGW_SWIFT_TOKEN_EXPIRATION.
Proof.
  intros H1 H2 H3. rewrite wire_time_expiration by assumption.
  unfold utime_add. unfold RGW_SWIFT_TOKEN_EXPIRATION in *.
  rewrite Z.mod_small by lia. reflexivity.
Qed.

(** A token made at [t], for a user the store maps to the signing
    secret, is accepted at every time [now] that is not after its
    expiration [t + TTL], whatever the seconds and nanoseconds of
    [now]. *)
Lemma fresh_token_accepted (store : account_store) (u secret : bytes)
    (rnd nonce : Z) (t now : utime_t) (info0 info : RGWUserInfo) (r : Z) :
  0 <= rnd ->
  0 <= tv_sec t -> tv_sec t + RGW_SWIFT_TOKEN_EXPIRATION < 2 ^ 64 ->
  0 <= tv_nsec t < 2 ^ 32 ->
  2 * (44 + Z.of_nat (length u)) <= INT_MAX ->
  store u info0 = (r, info) -> 0 <= r -> swift_key info = secret ->
  utime_lt (utime_add t RGW_SWIFT_TOKEN_EXPIRATION) now = false ->
  rgw_swift_verify_signed_token store now
    (storage_token (snd (encode_token (rnd, nonce) t u secret []))) info0
  = (0, info).
Proof.
  intros Hrnd Hs0 Hs1 Hns Hfit Hst Hr Hkey Hnow.
  rewrite encode_token_ok by assumption.
  rewrite (built_token_verdict store now u secret nonce _ Hfit info0 info r);
    try assumption.
  - rewrite Hkey, bytes_eqb_refl. reflexivity.
  - rewrite expiration_on_the_wire by assumption. exact Hnow.
Qed.

Ltac by_computation :=
  repeat match goal with |- _ /\ _ => split end;
  vm_compute;
  first [ reflexivity | discriminate | intro; discriminate | lia ].

(* ================================================================== *)
(** * Round trip and expiration *)

(** C1 - Round-trip success. For every username, secret and time [t]: if
    the random source succeeds and the account store maps the username to
    an account with that name and that same secret, then the token made
    by [encode_token] at [t] is accepted by
    [rgw_swift_verify_signed_token] at every time [now] that is not after
    the expiration [t + TTL], with return code 0 and the account of that
    username. Every [now = t + delta] with [0 <= delta < TTL] is such a
    time, whether [delta] is a whole number of seconds or not: [now] is
    any timestamp, seconds and nanoseconds. The side conditions are the
    widths of the integers involved: [t + TTL] fits the 64-bit seconds,
    the nanoseconds of [t] fit 32 bits, and the length of the token
    string fits an [int]. *)
Theorem round_trip_success (store : account_store) (username secret : bytes)
    (rnd nonce : Z) (t now : utime_t) (info0 info : RGWUserInfo) (r : Z) :
  0 <= rnd ->
  0 <= tv_sec t -> tv_sec t + RGW_SWIFT_TOKEN_EXPIRATION < 2 ^ 64 ->
  0 <= tv_nsec t < 2 ^ 32 ->
  2 * (44 + Z.of_nat (length username)) <= INT_MAX ->
  store username info0 = (r, info) -> 0 <= r ->
  swift_name info = username -> swift_key info = secret ->
  utime_lt (utime_add t RGW_SWIFT_TOKEN_EXPIRATION) now = false ->
  exists bl,
    encode_token (rnd, nonce) t username secret [] = (0, bl)
    /\ fst (rgw_swift_verify_signed_token store now (storage_token bl)
              info0) = 0
    /\ swift_name
         (snd (rgw_swift_verify_signed_token store now (storage_token bl)
                 info0)) = username.
Proof.
  intros Hrnd Hs0 Hs1 Hns Hfit Hst Hr Hname Hkey Hnow.
  exists (snd (encode_token (rnd, nonce) t username secret [])).
  rewrite (fresh_token_accepted store username secret rnd nonce t now
             info0 info r) by assumption.
  split; [|split]; [|reflexivity|exact Hname].
  rewrite encode_token_ok by assumption. now rewrite build_token_nil.
Qed.

(** The instance: ten seconds and one nanosecond after [T0]. *)
Lemma round_trip_success_witness :
  exists bl,
    encode_token (0, Scenario.nonce0) Scenario.T0 Scenario.alice
      Scenario.s3cr3t [] = (0, bl)
    /\ fst (rgw_swift_verify_signed_token (Scenario.store Scenario.s3cr3t)
              (mk_utime (tv_sec Scenario.T0 + 10) (tv_nsec Scenario.T0 + 1))
              (storage_token bl) Scenario.no_info) = 0
    /\ swift_name
         (snd (rgw_swift_verify_signed_token
                 (Scenario.store Scenario.s3cr3t)
                 (mk_utime (tv_sec Scenario.T0 + 10)
                    (tv_nsec Scenario.T0 + 1))
                 (storage_token bl) Scenario.no_info)) = Scenario.alice.
Proof.
  apply (round_trip_success (Scenario.store Scenario.s3cr3t) Scenario.alice
           Scenario.s3cr3t 0 Scenario.nonce0 Scenario.T0
           (mk_utime (tv_sec Scenario.T0 + 10) (tv_nsec Scenario.T0 + 1))
           Scenario.no_info (mk_info Scenario.alice Scenario.s3cr3t) 0);
    by_computation.
Defined.

(** C2 - Expiration boundary. The time-to-live is 900 seconds; the token
    made at [t] carries the expiration [t + 900] in its payload, and
    presenting it at [t + 901] is refused with [-EPERM] (expired),
    whatever the account store holds. *)
Theorem expiration_boundary (username secret : bytes) (rnd nonce : Z)
    (t : utime_t) :
  0 <= rnd ->
  0 <= tv_sec t -> tv_sec t + 901 < 2 ^ 64 ->
  0 <= tv_nsec t < 2 ^ 32 ->
  2 * (44 + Z.of_nat (length username)) <= INT_MAX ->
  RGW_SWIFT_TOKEN_EXPIRATION = 900
  /\ exists bl rest,
       encode_token (rnd, nonce) t username secret [] = (0, bl)
       /\ decode_payload bl
          = Some ((username, nonce mod 2 ^ 64,
                   mk_utime (tv_sec t + 900) (tv_nsec t)), rest)
       /\ forall (store : account_store) (info : RGWUserInfo),
            rgw_swift_verify_signed_token store (utime_add t 901)
              (storage_token bl) info = (- EPERM, info).
Proof.
  intros Hrnd Hs0 Hs1 Hns Hfit.
  split; [reflexivity|].
  assert (wire_time (utime_add t RGW_SWIFT_TOKEN_EXPIRATION)
          = mk_utime (tv_sec t + 900) (tv_nsec t)) as Hw.
  { rewrite wire_time_expiration; try assumption; [reflexivity|].
    unfold RGW_SWIFT_TOKEN_EXPIRATION. lia. }
  exists (snd (encode_token (rnd, nonce) t username secret [])).
  exists (token_mac secret username nonce
            (utime_add t RGW_SWIFT_TOKEN_EXPIRATION)).
  rewrite encode_token_ok by assumption.
  split; [now rewrite build_token_nil|]. split.
  - rewrite built_token_decodes by assumption. now rewrite Hw.
  - intros store info. apply built_token_expired; [assumption|].
    rewrite Hw. unfold utime_lt, utime_add. cbn [tv_sec tv_nsec].
    rewrite Z.mod_small by lia.
    destruct (Z.ltb_spec (tv_sec t + 900) (tv_sec t + 901)); [|lia].
    reflexivity.
Qed.

Lemma expiration_boundary_witness :
  RGW_SWIFT_TOKEN_EXPIRATION = 900
  /\ exists bl rest,
       encode_token (0, Scenario.nonce0) Scenario.T0 Scenario.alice
         Scenario.s3cr3t [] = (0, bl)
       /\ decode_payload bl
          = Some ((Scenario.alice, Scenario.nonce0 mod 2 ^ 64,
                   mk_utime (tv_sec Scenario.T0 + 900)
                     (tv_nsec Scenario.T0)), rest)
       /\ forall (store : account_store) (info : RGWUserInfo),
            rgw_swift_verify_signed_token store (utime_add Scenario.T0 901)
              (storage_token bl) info = (- EPERM, info).
Proof.
  apply (expiration_boundary Scenario.alice Scenario.s3cr3t 0 Scenario.nonce0
           Scenario.T0); by_computation.
Defined.

(** C9 - Inclusive expiration boundary. The expiration test is the strict
    [expiration < now]: a timestamp is never before itself, so a token
    made at [t] is accepted at exactly [now = t + TTL], and at every time
    [now] that is not after [t + TTL], seconds and nanoseconds: the
    whole closed interval from [t] to [t + TTL]. *)
Theorem inclusive_expiration_boundary (store : account_store)
    (username secret : bytes) (rnd nonce : Z) (t now : utime_t)
    (info0 info : RGWUserInfo) (r : Z) :
  0 <= rnd ->
  0 <= tv_sec t -> tv_sec t + RGW_SWIFT_TOKEN_EXPIRATION < 2 ^ 64 ->
  0 <= tv_nsec t < 2 ^ 32 ->
  2 * (44 + Z.of_nat (length username)) <= INT_MAX ->
  store username info0 = (r, info) -> 0 <= r -> swift_key info = secret ->
  utime_lt (utime_add t RGW_SWIFT_TOKEN_EXPIRATION) now = false ->
  let token :=
    storage_token (snd (encode_token (rnd, nonce) t username secret [])) in
  (forall e : utime_t, utime_lt e e = false)
  /\ rgw_swift_verify_signed_token store
       (utime_add t RGW_SWIFT_TOKEN_EXPIRATION) token info0 = (0, info)
  /\ rgw_swift_verify_signed_token store now token info0 = (0, info).
Proof.
  intros Hrnd Hs0 Hs1 Hns Hfit Hst Hr Hkey Hnow token.
  assert (forall e : utime_t, utime_lt e e = false) as Hirr.
  { intros e. unfold utime_lt. rewrite !Z.ltb_irrefl, andb_false_r.
    reflexivity. }
  split; [exact Hirr|]. split.
  - apply fresh_token_accepted with (r := r); try assumption. apply Hirr.
  - apply fresh_token_accepted with (r := r); assumption.
Qed.

(** The instance: one nanosecond before the expiration. *)
Lemma inclusive_expiration_boundary_witness :
  (forall e : utime_t, utime_lt e e = false)
  /\ rgw_swift_verify_signed_token (Scenario.store Scenario.s3cr3t)
       (utime_add Scenario.T0 RGW_SWIFT_TOKEN_EXPIRATION)
       (Scenario.token Scenario.s3cr3t) Scenario.no_info
     = (0, mk_info Scenario.alice Scenario.s3cr3t)
  /\ rgw_swift_verify_signed_token (Scenario.store Scenario.s3cr3t)
       (mk_utime (tv_sec Scenario.T0 + 900) (tv_nsec Scenario.T0 - 1))
       (Scenario.token Scenario.s3cr3t) Scenario.no_info
     = (0, mk_info Scenario.alice Scenario.s3cr3t).
Proof.
  apply (inclusive_expiration_boundary (Scenario.store Scenario.s3cr3t)
           Scenario.alice Scenario.s3cr3t 0 Scenario.nonce0 Scenario.T0
           (mk_utime (tv_sec Scenario.T0 + 900) (tv_nsec Scenario.T0 - 1))
           Scenario.no_info (mk_info Scenario.alice Scenario.s3cr3t) 0);
    by_computation.
Defined.

(* ================================================================== *)
(** * The encode path *)

(** C8 - Encode failure on randomness. When the random source fails
    (negative return code), [encode_token] returns that code and leaves
    the buffer as it was: no token is produced. It is the only failure:
    [build_token] always returns 0, so when the random source succeeds
    [encode_token] returns 0. *)
Theorem encode_fails_only_on_randomness (rnd nonce : Z) (t : utime_t)
    (os_user key bl : bytes) :
  (rnd < 0 -> encode_token (rnd, nonce) t os_user key bl = (rnd, bl))
  /\ (0 <= rnd -> fst (encode_token (rnd, nonce) t os_user key bl) = 0)
  /\ (forall e : utime_t, fst (build_token os_user key nonce e bl) = 0).
Proof.
  split; [|split].
  - intros H. unfold encode_token. destruct (Z.ltb_spec rnd 0); [|lia].
    reflexivity.
  - intros H. now rewrite encode_token_ok.
  - reflexivity.
Qed.

Lemma encode_fails_only_on_randomness_witness :
  encode_token (-5, 0) Scenario.T0 Scenario.alice Scenario.s3cr3t []
  = (-5, [])
  /\ fst (encode_token (0, Scenario.nonce0) Scenario.T0 Scenario.alice
            Scenario.s3cr3t []) = 0.
Proof.
  destruct (encode_fails_only_on_randomness (-5) 0 Scenario.T0 Scenario.alice
              Scenario.s3cr3t []) as [Hfail _].
  destruct (encode_fails_only_on_randomness 0 Scenario.nonce0 Scenario.T0
              Scenario.alice Scenario.s3cr3t []) as [_ [Hok _]].
  split; [apply Hfail|apply Hok]; by_computation.
Defined.

(* ================================================================== *)
(** * Key derivation *)

Lemma Z_of_byte_or (a b : ascii) :
  Z_of_byte (byte_or a b) = Z.lor (Z_of_byte a) (Z_of_byte b).
Proof.
  unfold byte_or. rewrite Z_of_byte_of_Z.
  pose proof (Z_of_byte_range a) as Ha. pose proof (Z_of_byte_range b) as Hb.
  apply Z.mod_small. split.
  - apply Z.lor_nonneg. lia.
  - destruct (Z.eq_dec (Z.lor (Z_of_byte a) (Z_of_byte b)) 0) as [->|Hn];
      [lia|].
    assert (0 <= Z.lor (Z_of_byte a) (Z_of_byte b)) as Hnn
      by (apply Z.lor_nonneg; lia).
    change 256 with (2 ^ 8). apply Z.log2_lt_pow2; [lia|].
    rewrite Z.log2_lor by lia.
    apply Z.max_lub_lt.
    + destruct (Z.eq_dec (Z_of_byte a) 0) as [->|]; [reflexivity|].
      apply Z.log2_lt_pow2; lia.
    + destruct (Z.eq_dec (Z_of_byte b) 0) as [->|]; [reflexivity|].
      apply Z.log2_lt_pow2; lia.
Qed.

Lemma Z_of_byte_inj (a b : ascii) : Z_of_byte a = Z_of_byte b -> a = b.
Proof.
  intros H. rewrite <- (byte_of_Z_of_byte a), <- (byte_of_Z_of_byte b).
  now rewrite H.
Qed.

Lemma byte_or_assoc (a b c : ascii) :
  byte_or (byte_or a b) c = byte_or a (byte_or b c).
Proof.
  apply Z_of_byte_inj. rewrite !Z_of_byte_or. symmetry. apply Z.lor_assoc.
Qed.

Lemma byte_or_diag (a : ascii) : byte_or a a = a.
Proof. apply Z_of_byte_inj. rewrite Z_of_byte_or. apply Z.lor_diag. Qed.

Lemma byte_or_NUL_l (a : ascii) : byte_or NUL a = a.
Proof. apply Z_of_byte_inj. rewrite Z_of_byte_or. reflexivity. Qed.

Lemma upd_length (k : bytes) (i : nat) (c : ascii) :
  length (upd k i c) = length k.
Proof.
  revert i. induction k as [|x k IH]; intros [|i]; simpl; auto.
Qed.

Lemma nth_upd_same (k : bytes) (i : nat) (c : ascii) :
  (i < length k)%nat -> nth i (upd k i c) NUL = c.
Proof.
  revert i. induction k as [|x k IH]; intros [|i] H; simpl in *;
    try lia; auto.
  apply IH. lia.
Qed.

Lemma nth_upd_other (k : bytes) (i j : nat) (c : ascii) :
  i <> j -> nth j (upd k i c) NUL = nth j k NUL.
Proof.
  revert i j. induction k as [|x k IH]; intros [|i] [|j] H; simpl;
    try congruence; auto.
Qed.

Lemma upd_nth_same (k : bytes) (i : nat) : upd k i (nth i k NUL) = k.
Proof.
  revert i. induction k as [|x k IH]; intros [|i]; simpl; auto.
  now rewrite IH.
Qed.

Lemma key_loop_fold (n : Z) (s pre k : bytes) :
  Z.of_nat (length pre + length s) <= n ->
  key_loop n (length pre) s k
  = fold_left (or_step (pre ++ s)) (seq (length pre) (length s)) k.
Proof.
  revert pre k. induction s as [|c s IH]; intros pre k H; [reflexivity|].
  cbn [key_loop length seq fold_left]. cbn [length] in H.
  destruct (Z.ltb_spec (Z.of_nat (length pre)) n); [|lia].
  specialize (IH (pre ++ [c])).
  rewrite length_app, Nat.add_1_r in IH. cbn [length] in IH.
  rewrite <- app_assoc in IH. cbn [app] in IH.
  rewrite IH by lia.
  f_equal. unfold or_step. rewrite nth_middle. reflexivity.
Qed.

Lemma derive_key_spec (s : bytes) :
  Z.of_nat (length s) <= INT_MAX -> derive_key s = derive_spec s.
Proof.
  intros H. unfold derive_key. rewrite int_of_size_t_small by lia.
  apply (key_loop_fold (Z.of_nat (length s)) s []). cbn [length]. lia.
Qed.

Lemma fold_or_step_length (s : bytes) (l : list nat) (k : bytes) :
  length (fold_left (or_step s) l k) = length k.
Proof.
  revert k. induction l as [|i l IH]; intros k; [reflexivity|].
  cbn [fold_left]. rewrite IH. unfold or_step. apply upd_length.
Qed.

Lemma key_loop_length (n : Z) (s : bytes) (i : nat) (k : bytes) :
  length (key_loop n i s k) = length k.
Proof.
  revert i k. induction s as [|c s IH]; intros i k; [reflexivity|].
  cbn [key_loop]. destruct (Z.of_nat i <? n); [|reflexivity].
  rewrite IH. apply upd_length.
Qed.

Lemma derive_key_length (s : bytes) :
  length (derive_key s) = CEPH_CRYPTO_HMACSHA1_DIGESTSIZE.
Proof.
  unfold derive_key. rewrite key_loop_length. apply repeat_length.
Qed.

Lemma fold_or_step_bit (s : bytes) (l : list nat) (k : bytes) (j : nat)
    (b : Z) :
  length k = CEPH_CRYPTO_HMACSHA1_DIGESTSIZE ->
  (j < CEPH_CRYPTO_HMACSHA1_DIGESTSIZE)%nat ->
  Z.testbit (Z_of_byte (nth j (fold_left (or_step s) l k) NUL)) b
  = Z.testbit (Z_of_byte (nth j k NUL)) b
    || existsb
         (fun i =>
            (i mod CEPH_CRYPTO_HMACSHA1_DIGESTSIZE =? j)%nat
            && Z.testbit (Z_of_byte (nth i s NUL)) b) l.
Proof.
  intros Hk Hj. revert k Hk.
  induction l as [|i l IH]; intros k Hk.
  - cbn [fold_left existsb]. now rewrite orb_false_r.
  - cbn [fold_left existsb].
    rewrite IH by (unfold or_step; now rewrite upd_length).
    rewrite orb_assoc. f_equal. unfold or_step.
    assert (i mod CEPH_CRYPTO_HMACSHA1_DIGESTSIZE < length k)%nat as Hi.
    { rewrite Hk. apply Nat.mod_upper_bound. discriminate. }
    destruct (Nat.eqb_spec (i mod CEPH_CRYPTO_HMACSHA1_DIGESTSIZE) j)
      as [E|E].
    + rewrite <- E, nth_upd_same by assumption.
      rewrite Z_of_byte_or, Z.lor_spec. reflexivity.
    + rewrite nth_upd_other by assumption.
      cbn [andb]. now rewrite orb_false_r.
Qed.

Lemma derive_spec_bit (s : bytes) (j : nat) (b : Z) :
  (j < CEPH_CRYPTO_HMACSHA1_DIGESTSIZE)%nat ->
  Z.testbit (Z_of_byte (nth j (derive_spec s) NUL)) b = derived_bit s j b.
Proof.
  intros Hj. unfold derive_spec.
  rewrite fold_or_step_bit by (auto using repeat_length).
  rewrite nth_repeat. change (Z_of_byte NUL) with 0.
  rewrite Z.testbit_0_l. reflexivity.
Qed.

(** C3 - Key derivation algorithm. For every secret (whose length, as
    the loop takes it, fits an [int]) the key that [build_token] derives
    has the digest length of 20 bytes and is the result of starting from
    zeros and OR-ing each [secret[i]] into [output[i mod 20]]; bit by
    bit, byte [j] has a bit set exactly when some [secret[i]] with
    [i mod 20 = j] has it. Equal secrets yield equal keys. *)
Theorem key_derivation_algorithm (secret : bytes) :
  Z.of_nat (length secret) <= INT_MAX ->
  length (derive_key secret) = 20%nat
  /\ derive_key secret = derive_spec secret
  /\ (forall (j : nat) (b : Z), (j < 20)%nat ->
        Z.testbit (Z_of_byte (nth j (derive_key secret) NUL)) b
        = derived_bit secret j b)
  /\ (forall secret' : bytes,
        secret' = secret -> derive_key secret' = derive_key secret).
Proof.
  intros H. repeat split.
  - apply derive_key_length.
  - now apply derive_key_spec.
  - intros j b Hj. rewrite derive_key_spec by assumption.
    now apply derive_spec_bit.
  - intros secret' ->. reflexivity.
Qed.

Lemma key_derivation_algorithm_witness :
  length (derive_key Scenario.s3cr3t) = 20%nat
  /\ derive_key Scenario.s3cr3t = derive_spec Scenario.s3cr3t
  /\ (forall (j : nat) (b : Z), (j < 20)%nat ->
        Z.testbit (Z_of_byte (nth j (derive_key Scenario.s3cr3t) NUL)) b
        = derived_bit Scenario.s3cr3t j b)
  /\ (forall secret' : bytes,
        secret' = Scenario.s3cr3t ->
        derive_key secret' = derive_key Scenario.s3cr3t).
Proof.
  apply (key_derivation_algorithm Scenario.s3cr3t). by_computation.
Defined.

(* ================================================================== *)
(** * Collisions of the derived key *)

Lemma fold_or_step_ext (s s' : bytes) (l : list nat) (k : bytes) :
  (forall i, In i l -> nth i s NUL = nth i s' NUL) ->
  fold_left (or_step s) l k = fold_left (or_step s') l k.
Proof.
  revert k. induction l as [|i l IH]; intros k H; [reflexivity|].
  cbn [fold_left]. unfold or_step at 2 4.
  rewrite (H i) by (now left). apply IH.
  intros i' Hi'. apply H. now right.
Qed.

Lemma derive_spec_snoc (s : bytes) (c : ascii) :
  derive_spec (s ++ [c])
  = let j := (length s mod CEPH_CRYPTO_HMACSHA1_DIGESTSIZE)%nat in
    upd (derive_spec s) j (byte_or (nth j (derive_spec s) NUL) c).
Proof.
  unfold derive_spec at 1. rewrite length_app. cbn [length].
  rewrite Nat.add_1_r, seq_S, fold_left_app. cbn [fold_left Nat.add].
  rewrite (fold_or_step_ext (s ++ [c]) s).
  - fold (derive_spec s). unfold or_step. now rewrite nth_middle.
  - intros i Hi. apply in_seq in Hi. apply app_nth1. lia.
Qed.

(** Appending a character whose bits the key already has at its place
    leaves the derived key as it was. *)
Lemma derive_key_absorbs (s : bytes) (c : ascii) :
  Z.of_nat (length s) < INT_MAX ->
  (let j := (length s mod CEPH_CRYPTO_HMACSHA1_DIGESTSIZE)%nat in
   byte_or (nth j (derive_key s) NUL) c = nth j (derive_key s) NUL) ->
  derive_key (s ++ [c]) = derive_key s.
Proof.
  intros Hlen Habs. cbv zeta in Habs.
  rewrite (derive_key_spec s) in * by lia.
  rewrite derive_key_spec
    by (rewrite length_app; cbn [length]; lia).
  rewrite derive_spec_snoc. cbv zeta. rewrite Habs. apply upd_nth_same.
Qed.

Lemma byte_or_absorbs_bits (a c : ascii) :
  (forall b : Z, Z.testbit (Z_of_byte c) b = true ->
                 Z.testbit (Z_of_byte a) b = true) ->
  byte_or a c = a.
Proof.
  intros H. apply Z_of_byte_inj. rewrite Z_of_byte_or.
  apply Z.bits_inj. intros b. rewrite Z.lor_spec.
  destruct (Z.testbit (Z_of_byte c) b) eqn:E.
  - rewrite (H b E). reflexivity.
  - apply orb_false_r.
Qed.

(** In particular the character found 20 places earlier, or at any
    earlier index of the same residue. *)
Lemma derive_key_repeat (s : bytes) (i : nat) :
  (i < length s)%nat ->
  (i mod CEPH_CRYPTO_HMACSHA1_DIGESTSIZE
   = length s mod CEPH_CRYPTO_HMACSHA1_DIGESTSIZE)%nat ->
  Z.of_nat (length s) < INT_MAX ->
  derive_key (s ++ [nth i s NUL]) = derive_key s.
Proof.
  intros Hi Hmod Hlen. apply derive_key_absorbs; [assumption|].
  cbv zeta. apply byte_or_absorbs_bits. intros b Hb.
  rewrite derive_key_spec by lia.
  rewrite derive_spec_bit
    by (apply Nat.mod_upper_bound; discriminate).
  unfold derived_bit. apply existsb_exists. exists i. split.
  - apply in_seq. lia.
  - rewrite Hmod, Nat.eqb_refl, Hb. reflexivity.
Qed.

Lemma snoc_neq (s : bytes) (c : ascii) : s ++ [c] <> s.
Proof.
  intros H. apply (f_equal (@length ascii)) in H.
  rewrite length_app in H. cbn [length] in H. lia.
Qed.

(** C10 - Derived-key collisions. The OR fold is not injective: there are
    distinct secrets with the same derived key, hence the same MAC for
    every payload. A family of them: a secret and that secret with one
    character appended which repeats the character 20 places (or any
    multiple of 20) earlier. *)
Theorem derived_key_collisions :
  (exists a b : bytes,
      a <> b /\ derive_key a = derive_key b
      /\ forall (os_user : bytes) (nonce : Z) (expiration : utime_t),
           token_mac a os_user nonce expiration
           = token_mac b os_user nonce expiration)
  /\ (forall (s : bytes) (i : nat),
        (i < length s)%nat ->
        (i mod 20 = length s mod 20)%nat ->
        Z.of_nat (length s) < INT_MAX ->
        s ++ [nth i s NUL] <> s
        /\ derive_key (s ++ [nth i s NUL]) = derive_key s
        /\ forall msg : bytes,
             calc_hmac_sha1 (derive_key (s ++ [nth i s NUL])) msg
             = calc_hmac_sha1 (derive_key s) msg).
Proof.
  split.
  - exists Scenario.secretA, Scenario.secretB.
    assert (derive_key Scenario.secretA = derive_key Scenario.secretB) as E
      by (vm_compute; reflexivity).
    split; [discriminate|]. split; [exact E|].
    intros u n e. unfold token_mac. now rewrite E.
  - intros s i Hi Hmod Hlen.
    pose proof (derive_key_repeat s i Hi Hmod Hlen) as E.
    split; [apply snoc_neq|]. split; [exact E|].
    intros msg. now rewrite E.
Qed.

Lemma derived_key_collisions_witness :
  Scenario.secretA ++ [nth 0 Scenario.secretA NUL] <> Scenario.secretA
  /\ derive_key (Scenario.secretA ++ [nth 0 Scenario.secretA NUL])
     = derive_key Scenario.secretA
  /\ forall msg : bytes,
       calc_hmac_sha1
         (derive_key (Scenario.secretA ++ [nth 0 Scenario.secretA NUL])) msg
       = calc_hmac_sha1 (derive_key Scenario.secretA) msg.
Proof.
  apply (proj2 derived_key_collisions Scenario.secretA 0%nat);
    by_computation.
Defined.

(* ================================================================== *)
(** * Key sensitivity *)

(** C4, as stated, fails: the two distinct secrets of the scenario have
    the same derived key, and the token signed under the first is
    accepted against an account holding the second. *)
Lemma key_sensitivity_counterexample :
  Scenario.secretA <> Scenario.secretB
  /\ rgw_swift_verify_signed_token (Scenario.store Scenario.secretB)
       Scenario.T0 (Scenario.token Scenario.secretA) Scenario.no_info
     = (0, mk_info Scenario.alice Scenario.secretB).
Proof. split; [discriminate|vm_compute; reflexivity]. Qed.

(** C4, amended - Key sensitivity up to the derived key. The token made
    for [username] under [secretA] and verified at the same time against
    an account holding [secretB] is refused with [-EPERM] whenever the
    MACs of its payload under the two derived keys differ, and accepted
    whenever the two derived keys are equal. *)
Theorem key_sensitivity_up_to_derived_key (store : account_store)
    (username secretA secretB : bytes) (rnd nonce : Z) (t : utime_t)
    (info0 info : RGWUserInfo) (r : Z) :
  0 <= rnd ->
  0 <= tv_sec t -> tv_sec t + RGW_SWIFT_TOKEN_EXPIRATION < 2 ^ 64 ->
  0 <= tv_nsec t < 2 ^ 32 ->
  2 * (44 + Z.of_nat (length username)) <= INT_MAX ->
  store username info0 = (r, info) -> 0 <= r -> swift_key info = secretB ->
  let expiration := utime_add t RGW_SWIFT_TOKEN_EXPIRATION in
  let verdict :=
    rgw_swift_verify_signed_token store t
      (storage_token (snd (encode_token (rnd, nonce) t username secretA [])))
      info0 in
  (token_mac secretA username nonce expiration
   <> token_mac secretB username nonce expiration ->
   verdict = (- EPERM, info))
  /\ (derive_key secretA = derive_key secretB -> verdict = (0, info)).
Proof.
  intros Hrnd Hs0 Hs1 Hns Hfit Hst Hr Hkey expiration verdict.
  assert (verdict
          = if bytes_eqb (token_mac secretA username nonce expiration)
                 (token_mac secretB username nonce expiration)
            then (0, info) else (- EPERM, info)) as Hv.
  { subst verdict expiration. rewrite encode_token_ok by assumption.
    rewrite (built_token_verdict store t username secretA nonce
               (utime_add t RGW_SWIFT_TOKEN_EXPIRATION)
               Hfit info0 info r); try assumption.
    - now rewrite Hkey.
    - rewrite wire_time_expiration by assumption.
      unfold utime_lt. cbn [tv_sec tv_nsec].
      unfold RGW_SWIFT_TOKEN_EXPIRATION.
      destruct (Z.ltb_spec (tv_sec t + 15 * 60) (tv_sec t)); [lia|].
      destruct (Z.eqb_spec (tv_sec t + 15 * 60) (tv_sec t)); [lia|].
      reflexivity. }
  rewrite Hv. split.
  - intros Hne. apply bytes_eqb_neq in Hne. now rewrite Hne.
  - intros E. unfold token_mac. rewrite E, bytes_eqb_refl. reflexivity.
Qed.

Lemma key_sensitivity_up_to_derived_key_witness :
  rgw_swift_verify_signed_token (Scenario.store Scenario.other_secret)
    Scenario.T0 (Scenario.token Scenario.s3cr3t) Scenario.no_info
  = (- EPERM, mk_info Scenario.alice Scenario.other_secret)
  /\ rgw_swift_verify_signed_token (Scenario.store Scenario.secretB)
       Scenario.T0 (Scenario.token Scenario.secretA) Scenario.no_info
     = (0, mk_info Scenario.alice Scenario.secretB).
Proof.
  split.
  - apply (key_sensitivity_up_to_derived_key
             (Scenario.store Scenario.other_secret) Scenario.alice
             Scenario.s3cr3t Scenario.other_secret 0 Scenario.nonce0
             Scenario.T0 Scenario.no_info
             (mk_info Scenario.alice Scenario.other_secret) 0);
      by_computation.
  - apply (key_sensitivity_up_to_derived_key
             (Scenario.store Scenario.secretB) Scenario.alice
             Scenario.secretA Scenario.secretB 0 Scenario.nonce0
             Scenario.T0 Scenario.no_info
             (mk_info Scenario.alice Scenario.secretB) 0);
      by_computation.
Defined.

(* ================================================================== *)
(** * Errors of the verification path *)

Section Checks.

Variable store : account_store.
Variable now : utime_t.
Variable token : bytes.
Variable info : RGWUserInfo.

Let body := skipn 10 token.
Let len := int_of_size_t (strlen body).
Let hex := hex_to_buf (c_str body).
Let verdict := rgw_swift_verify_signed_token store now token info.

Lemma verdict_bad_prefix :
  strncmp_eq token AUTH_rgwtk 10 = false -> verdict = (- EINVAL, info).
Proof.
  intros H. subst verdict. unfold rgw_swift_verify_signed_token.
  now rewrite H.
Qed.

Lemma verdict_odd_length :
  strncmp_eq token AUTH_rgwtk 10 = true -> Z.land len 1 <> 0 ->
  verdict = (- EINVAL, info).
Proof.
  intros Hp H. subst verdict len body.
  unfold rgw_swift_verify_signed_token. rewrite Hp. cbn [negb].
  destruct (Z.eqb_spec (Z.land (int_of_size_t (strlen (skipn 10 token))) 1)
              0); [contradiction|reflexivity].
Qed.

Lemma verdict_bad_hex :
  strncmp_eq token AUTH_rgwtk 10 = true -> Z.land len 1 = 0 ->
  fst hex < 0 -> verdict = (fst hex, info).
Proof.
  intros Hp Hl H. subst verdict hex len body.
  unfold rgw_swift_verify_signed_token. rewrite Hp, Hl. cbn [negb Z.eqb].
  destruct (hex_to_buf (c_str (skipn 10 token))) as [ret p].
  cbn [fst] in *. destruct (Z.ltb_spec ret 0); [reflexivity|lia].
Qed.

Lemma verdict_buffer :
  strncmp_eq token AUTH_rgwtk 10 = true -> Z.land len 1 = 0 ->
  0 <= fst hex -> verdict = verify_buffer store now (snd hex) info.
Proof.
  intros Hp Hl H. subst verdict hex len body.
  apply verify_reaches_buffer
    with (ret := fst (hex_to_buf (c_str (skipn 10 token))));
    try assumption.
  now destruct (hex_to_buf (c_str (skipn 10 token))).
Qed.

End Checks.

Lemma verify_buffer_undecodable (store : account_store) (now : utime_t)
    (bl : bytes) (info : RGWUserInfo) :
  decode_payload bl = None ->
  verify_buffer store now bl info = (- EINVAL, info).
Proof. intros H. unfold verify_buffer. now rewrite H. Qed.

Lemma verify_buffer_expired (store : account_store) (now : utime_t)
    (bl u rest : bytes) (n : Z) (e : utime_t) (info : RGWUserInfo) :
  decode_payload bl = Some ((u, n, e), rest) -> utime_lt e now = true ->
  verify_buffer store now bl info = (- EPERM, info).
Proof. intros H He. unfold verify_buffer. now rewrite H, He. Qed.

Lemma verify_buffer_lookup_failed (store : account_store) (now : utime_t)
    (bl u rest : bytes) (n : Z) (e : utime_t) (info : RGWUserInfo) :
  decode_payload bl = Some ((u, n, e), rest) -> utime_lt e now = false ->
  fst (store u info) < 0 ->
  verify_buffer store now bl info = store u info.
Proof.
  intros H He Hs. unfold verify_buffer. rewrite H, He.
  destruct (store u info) as [r info']. cbn [fst] in Hs.
  destruct (Z.ltb_spec r 0); [reflexivity|lia].
Qed.

Lemma verify_buffer_compared (store : account_store) (now : utime_t)
    (bl u rest : bytes) (n : Z) (e : utime_t) (info : RGWUserInfo) :
  decode_payload bl = Some ((u, n, e), rest) -> utime_lt e now = false ->
  0 <= fst (store u info) ->
  verify_buffer store now bl info
  = if bytes_eqb rest (token_mac (swift_key (snd (store u info))) u n e)
    then (0, snd (store u info)) else (- EPERM, snd (store u info)).
Proof.
  intros H He Hs.
  apply verify_buffer_decoded with (r := fst (store u info));
    try assumption.
  now destruct (store u info).
Qed.

(** C6 - Ordered short-circuit verification. For every token string, the
    verdict of [rgw_swift_verify_signed_token] is that of the first
    failing check in the order: prefix, even length, hex decoding,
    payload decoding, expiration, account lookup, MAC comparison. A
    failure before the lookup gives its error with [info] untouched,
    whatever the account store is; in particular an expired token is
    refused with [-EPERM] for every store and every MAC. After a failed
    lookup the MAC bytes play no part. *)
Theorem ordered_short_circuit (store : account_store) (now : utime_t)
    (token : bytes) (info : RGWUserInfo) :
  let body := skipn 10 token in
  let len := int_of_size_t (strlen body) in
  let hex := hex_to_buf (c_str body) in
  let bl := snd hex in
  let verdict := rgw_swift_verify_signed_token store now token info in
  (strncmp_eq token AUTH_rgwtk 10 = false -> verdict = (- EINVAL, info))
  /\ (strncmp_eq token AUTH_rgwtk 10 = true ->
      (Z.land len 1 <> 0 -> verdict = (- EINVAL, info))
      /\ (Z.land len 1 = 0 ->
          (fst hex < 0 -> verdict = (fst hex, info))
          /\ (0 <= fst hex ->
              (decode_payload bl = None -> verdict = (- EINVAL, info))
              /\ (forall (u rest : bytes) (n : Z) (e : utime_t),
                    decode_payload bl = Some ((u, n, e), rest) ->
                    (utime_lt e now = true -> verdict = (- EPERM, info))
                    /\ (utime_lt e now = false ->
                        (fst (store u info) < 0 -> verdict = store u info)
                        /\ (0 <= fst (store u info) ->
                            verdict
                            = if bytes_eqb rest
                                   (token_mac (swift_key (snd (store u info)))
                                      u n e)
                              then (0, snd (store u info))
                              else (- EPERM, snd (store u info)))))))).
Proof.
  intros body len hex bl verdict. split.
  - apply verdict_bad_prefix.
  - intros Hp. split; [now apply verdict_odd_length|].
    intros Hl. split; [now apply verdict_bad_hex|].
    intros Hh.
    assert (verdict = verify_buffer store now bl info) as ->
      by (now apply verdict_buffer).
    split; [apply verify_buffer_undecodable|].
    intros u rest n e Hd. split.
    + intros He. exact (verify_buffer_expired store now bl u rest n e info
                          Hd He).
    + intros He. split.
      * intros Hs. exact (verify_buffer_lookup_failed store now bl u rest n
                            e info Hd He Hs).
      * intros Hs. exact (verify_buffer_compared store now bl u rest n e
                            info Hd He Hs).
Qed.

Lemma ordered_short_circuit_witness :
  rgw_swift_verify_signed_token (Scenario.store Scenario.s3cr3t)
    (utime_add Scenario.T0 901) (Scenario.token Scenario.s3cr3t)
    Scenario.no_info
  = (- EPERM, Scenario.no_info).
Proof.
  pose proof (ordered_short_circuit (Scenario.store Scenario.s3cr3t)
                (utime_add Scenario.T0 901) (Scenario.token Scenario.s3cr3t)
                Scenario.no_info) as H.
  cbv zeta in H. destruct H as [_ H].
  destruct (H ltac:(by_computation)) as [_ H1].
  destruct (H1 ltac:(by_computation)) as [_ H2].
  destruct (H2 ltac:(by_computation)) as [_ H3].
  destruct (H3 Scenario.alice
              (token_mac Scenario.s3cr3t Scenario.alice Scenario.nonce0
                 (utime_add Scenario.T0 RGW_SWIFT_TOKEN_EXPIRATION))
              Scenario.nonce0
              (utime_add Scenario.T0 RGW_SWIFT_TOKEN_EXPIRATION)
              ltac:(by_computation)) as [H4 _].
  apply H4. by_computation.
Defined.

(** C5, as stated, fails: for a user the store does not know the verifier
    returns the store's [-ENOENT], for a known user with another key it
    returns [-EPERM]; the caller can tell the two apart. *)
Lemma error_folding_counterexample :
  fst (rgw_swift_verify_signed_token (Scenario.store Scenario.s3cr3t)
         Scenario.T0 Scenario.bob_token Scenario.no_info)
  = - Scenario.ENOENT
  /\ fst (rgw_swift_verify_signed_token
            (Scenario.store Scenario.other_secret) Scenario.T0
            (Scenario.token Scenario.s3cr3t) Scenario.no_info)
     = - EPERM
  /\ - Scenario.ENOENT <> - EPERM.
Proof. by_computation. Qed.

(** C5, amended - Lookup failures are passed on. For a token that passes
    the checks before the lookup: when the account lookup fails with the
    code [r < 0], the verifier returns [r] itself, with the [info] the
    store left; when the lookup succeeds and the bytes after the payload
    are not the MAC under the account's key, it returns [-EPERM]. Both
    are negative return codes; they are the same code only when the
    store's own code is [-EPERM]. *)
Theorem lookup_failure_passed_on (store : account_store) (now : utime_t)
    (token bl : bytes) (ret : Z) (u rest : bytes) (n : Z) (e : utime_t)
    (info info' : RGWUserInfo) (r : Z) :
  strncmp_eq token AUTH_rgwtk 10 = true ->
  Z.land (int_of_size_t (strlen (skipn 10 token))) 1 = 0 ->
  hex_to_buf (c_str (skipn 10 token)) = (ret, bl) -> 0 <= ret ->
  decode_payload bl = Some ((u, n, e), rest) ->
  utime_lt e now = false ->
  store u info = (r, info') ->
  let verdict := rgw_swift_verify_signed_token store now token info in
  (r < 0 -> verdict = (r, info'))
  /\ (0 <= r -> rest <> token_mac (swift_key info') u n e ->
      verdict = (- EPERM, info'))
  /\ (r < 0 \/ rest <> token_mac (swift_key info') u n e ->
      fst verdict < 0).
Proof.
  intros Hp Hl Hh Hr Hd He Hs verdict.
  assert (verdict = verify_buffer store now bl info) as Hv
    by (subst verdict; now apply verify_reaches_buffer with (ret := ret)).
  assert (r < 0 -> verdict = (r, info')) as A.
  { intros Hneg. rewrite Hv, <- Hs.
    apply verify_buffer_lookup_failed with (rest := rest) (n := n) (e := e);
      try assumption.
    rewrite Hs. exact Hneg. }
  assert (0 <= r -> rest <> token_mac (swift_key info') u n e ->
          verdict = (- EPERM, info')) as B.
  { intros Hpos Hne. rewrite Hv.
    rewrite (verify_buffer_decoded store now bl u rest n e info info' r)
      by assumption.
    apply bytes_eqb_neq in Hne. now rewrite Hne. }
  split; [exact A|]. split; [exact B|].
  intros [Hneg|Hne].
  - rewrite (A Hneg). exact Hneg.
  - destruct (Z.lt_ge_cases r 0) as [Hneg|Hpos].
    + rewrite (A Hneg). exact Hneg.
    + rewrite (B Hpos Hne). reflexivity.
Qed.

Lemma lookup_failure_passed_on_witness :
  rgw_swift_verify_signed_token (Scenario.store Scenario.s3cr3t)
    Scenario.T0 Scenario.bob_token Scenario.no_info
  = (- Scenario.ENOENT, Scenario.no_info).
Proof.
  apply (lookup_failure_passed_on (Scenario.store Scenario.s3cr3t)
           Scenario.T0 Scenario.bob_token
           (snd (encode_token (0, Scenario.nonce0) Scenario.T0 Scenario.bob
                   Scenario.s3cr3t []))
           47 Scenario.bob
           (token_mac Scenario.s3cr3t Scenario.bob Scenario.nonce0
              (utime_add Scenario.T0 RGW_SWIFT_TOKEN_EXPIRATION))
           Scenario.nonce0
           (utime_add Scenario.T0 RGW_SWIFT_TOKEN_EXPIRATION)
           Scenario.no_info Scenario.no_info (- Scenario.ENOENT));
    by_computation.
Defined.

(* ================================================================== *)
(** * Decoding the payload *)

Lemma firstn_exact (a b : bytes) (n : nat) :
  length a = n -> firstn n (a ++ b) = a.
Proof.
  intros <-.
  now rewrite firstn_app, Nat.sub_diag, firstn_all, firstn_O, app_nil_r.
Qed.

Lemma payload_head (u : bytes) (n : Z) (e : utime_t) (r : bytes) :
  Z.of_nat (length u) < 2 ^ 32 ->
  firstn 4 (payload_bytes u n e ++ r) = encode_le 4 (Z.of_nat (length u)).
Proof.
  intros H. rewrite payload_bytes_eq, encode_string_nil by assumption.
  rewrite <- !app_assoc. apply firstn_exact, encode_le_length.
Qed.

(** A buffer cut anywhere inside the payload does not decode. *)
Lemma truncated_payload_rejected (u : bytes) (n : Z) (e : utime_t) (k : nat) :
  Z.of_nat (length u) < 2 ^ 32 ->
  (k < length (payload_bytes u n e))%nat ->
  decode_payload (firstn k (payload_bytes u n e)) = None.
Proof.
  intros Hu Hk.
  destruct (decode_payload (firstn k (payload_bytes u n e)))
    as [[[[u' n'] e'] rest]|] eqn:E; [exfalso|reflexivity].
  apply decode_payload_inv in E. destruct E as [E Hu'].
  assert (length (firstn k (payload_bytes u n e)) = k) as Lk
    by (apply firstn_length_le; lia).
  pose proof (f_equal (@length ascii) E) as L.
  rewrite Lk, length_app in L.
  rewrite payload_bytes_length in Hk, L by assumption.
  pose proof (f_equal (firstn 4) E) as F.
  rewrite firstn_firstn, Nat.min_l in F by lia.
  rewrite (payload_head u' n' e' rest Hu') in F.
  rewrite <- (app_nil_r (payload_bytes u n e)) in F.
  rewrite (payload_head u n e [] Hu) in F.
  apply (f_equal decode_le) in F. rewrite !decode_encode_le in F.
  change (256 ^ Z.of_nat 4) with (2 ^ 32) in F.
  rewrite !Z.mod_small in F by lia. lia.
Qed.

(** C7, as stated, fails: a buffer that holds a valid payload and MAC and
    one byte more is decoded, and refused only by the later length
    comparison, with [-EPERM] and not with [-EINVAL]. *)
Lemma overlong_buffer_counterexample :
  option_map fst (decode_payload (Scenario.token_bl Scenario.s3cr3t ++ [NUL]))
  = Some (Scenario.alice, Scenario.nonce0,
          utime_add Scenario.T0 RGW_SWIFT_TOKEN_EXPIRATION)
  /\ rgw_swift_verify_signed_token (Scenario.store Scenario.s3cr3t)
       Scenario.T0
       (storage_token (Scenario.token_bl Scenario.s3cr3t ++ [NUL]))
       Scenario.no_info
     = (- EPERM, mk_info Scenario.alice Scenario.s3cr3t)
  /\ - EPERM <> - EINVAL.
Proof. by_computation. Qed.

(** C7, amended - Payload decode totality. For every buffer that reaches
    the payload decoder: a failure to decode makes the verifier return
    the typed error [-EINVAL], and a buffer cut inside the payload is such
    a failure; a successful decode has read exactly the serialized
    payload at the front of the buffer. A buffer whose payload is
    followed by a number of bytes other than the 20 of the MAC is not a
    decode failure: once the token is current and the account found, the
    length comparison refuses it with [-EPERM]. *)
Theorem payload_decode_total (store : account_store) (now : utime_t)
    (token bl : bytes) (ret : Z) (info : RGWUserInfo) :
  strncmp_eq token AUTH_rgwtk 10 = true ->
  Z.land (int_of_size_t (strlen (skipn 10 token))) 1 = 0 ->
  hex_to_buf (c_str (skipn 10 token)) = (ret, bl) -> 0 <= ret ->
  let verdict := rgw_swift_verify_signed_token store now token info in
  (decode_payload bl = None -> verdict = (- EINVAL, info))
  /\ (forall (u : bytes) (n : Z) (e : utime_t) (k : nat),
        Z.of_nat (length u) < 2 ^ 32 ->
        (k < length (payload_bytes u n e))%nat ->
        bl = firstn k (payload_bytes u n e) ->
        verdict = (- EINVAL, info))
  /\ (forall (u rest : bytes) (n : Z) (e : utime_t),
        decode_payload bl = Some ((u, n, e), rest) ->
        bl = payload_bytes u n e ++ rest
        /\ (utime_lt e now = false ->
            0 <= fst (store u info) ->
            length rest <> 20%nat ->
            verdict = (- EPERM, snd (store u info)))).
Proof.
  intros Hp Hl Hh Hr verdict.
  assert (verdict = verify_buffer store now bl info) as Hv
    by (subst verdict; now apply verify_reaches_buffer with (ret := ret)).
  split; [|split].
  - intros Hd. rewrite Hv. now apply verify_buffer_undecodable.
  - intros u n e k Hu Hk ->. rewrite Hv.
    apply verify_buffer_undecodable.
    now apply truncated_payload_rejected.
  - intros u rest n e Hd. split.
    + now apply decode_payload_inv in Hd.
    + intros He Hs Hlen. rewrite Hv.
      rewrite (verify_buffer_compared store now bl u rest n e info Hd He Hs).
      destruct (bytes_eqb rest _) eqn:E; [|reflexivity].
      apply bytes_eqb_eq in E. exfalso. apply Hlen. rewrite E.
      unfold token_mac. apply calc_hmac_sha1_length.
Qed.

Lemma payload_decode_total_witness :
  rgw_swift_verify_signed_token (Scenario.store Scenario.s3cr3t)
    Scenario.T0
    (storage_token (firstn 10 (Scenario.token_bl Scenario.s3cr3t)))
    Scenario.no_info
  = (- EINVAL, Scenario.no_info)
  /\ rgw_swift_verify_signed_token (Scenario.store Scenario.s3cr3t)
       Scenario.T0
       (storage_token (Scenario.token_bl Scenario.s3cr3t ++ [NUL]))
       Scenario.no_info
     = (- EPERM, mk_info Scenario.alice Scenario.s3cr3t).
Proof.
  split.
  - apply (payload_decode_total (Scenario.store Scenario.s3cr3t) Scenario.T0
             (storage_token (firstn 10 (Scenario.token_bl Scenario.s3cr3t)))
             (firstn 10 (Scenario.token_bl Scenario.s3cr3t)) 10
             Scenario.no_info); by_computation.
  - destruct (payload_decode_total (Scenario.store Scenario.s3cr3t)
                Scenario.T0
                (storage_token (Scenario.token_bl Scenario.s3cr3t ++ [NUL]))
                (Scenario.token_bl Scenario.s3cr3t ++ [NUL]) 50
                Scenario.no_info ltac:(by_computation) ltac:(by_computation)
                ltac:(by_computation) ltac:(by_computation))
      as [_ [_ H]].
    destruct (H Scenario.alice
                (token_mac Scenario.s3cr3t Scenario.alice Scenario.nonce0
                   (utime_add Scenario.T0 RGW_SWIFT_TOKEN_EXPIRATION)
                 ++ [NUL])
                Scenario.nonce0
                (utime_add Scenario.T0 RGW_SWIFT_TOKEN_EXPIRATION)
                ltac:(by_computation)) as [_ H'].
    apply H'; by_computation.
Defined.

(* ================================================================== *)
(** * The HTTP auth operation *)

Lemma header_url_not_token (url pre bl : bytes) :
  storage_url_header url pre <> storage_token_header bl.
Proof. unfold storage_url_header, storage_token_header. discriminate. Qed.

Section Execute.

Variable store : account_store.
Variable rnd : Z * Z.
Variable now : utime_t.

(** The checks of [execute] in their order, each with its outcome. *)
Lemma execute_stages (key user pre url : option bytes) (u : bytes) :
  user = Some u ->
  let acct := store (c_str u) (mk_info [] []) in
  RGW_SWIFT_Auth_Get_execute store rnd now (mk_env key user pre url)
  = match url, pre with
    | Some url, Some pre =>
        match key with
        | None => Some (- EPERM, closing_calls (- EPERM))
        | Some key =>
            if fst acct <? 0 then Some (fst acct, closing_calls (fst acct))
            else if negb (bytes_eqb (swift_key (snd acct)) (c_str key)) then
              Some (- EPERM, closing_calls (- EPERM))
            else if fst rnd <? 0 then
              Some (fst rnd,
                    CGI_PRINTF (storage_url_header url pre)
                      :: closing_calls (fst rnd))
            else
              Some (204,
                    CGI_PRINTF (storage_url_header url pre)
                      :: CGI_PRINTF
                           (storage_token_header
                              (snd (encode_token rnd now
                                      (swift_name (snd acct))
                                      (swift_key (snd acct)) [])))
                      :: closing_calls 204)
        end
    | _, _ => Some (- EINVAL, closing_calls (- EINVAL))
    end.
Proof.
  intros ->. cbv zeta. unfold RGW_SWIFT_Auth_Get_execute.
  cbn [HTTP_X_AUTH_KEY HTTP_X_AUTH_USER RGW_SWIFT_URL_PREFIX RGW_SWIFT_URL].
  destruct url as [url'|]; [|reflexivity].
  destruct pre as [pre'|]; [|reflexivity].
  destruct key as [key'|]; [|reflexivity].
  destruct (store (c_str u) (mk_info [] [])) as [r acct]. cbn [fst snd].
  destruct (r <? 0); [reflexivity|].
  unfold string_compare_eq.
  destruct (bytes_eqb (swift_key acct) (c_str key')); [|reflexivity].
  cbn [negb]. destruct rnd as [rr nonce]. cbn [fst].
  unfold encode_token. destruct (rr <? 0) eqn:E.
  - rewrite E. reflexivity.
  - rewrite build_token_nil. cbn [Z.ltb Z.compare app snd]. reflexivity.
Qed.

End Execute.

(** X1 - [execute] issues a token exactly when everything holds. With the
    user header present, the status handed to [set_req_state_err] is 204
    if and only if both server variables and the key header are set, the
    account lookup succeeds, the stored swift key equals the presented
    key, and the random source succeeds. *)
Theorem execute_issues_token_iff (store : account_store) (rnd : Z * Z)
    (now : utime_t) (key user pre url : option bytes) (u : bytes) :
  user = Some u ->
  let acct := store (c_str u) (mk_info [] []) in
  (exists out,
      RGW_SWIFT_Auth_Get_execute store rnd now (mk_env key user pre url)
      = Some (204, out))
  <-> (exists k p l,
          key = Some k /\ pre = Some p /\ url = Some l
          /\ 0 <= fst acct /\ swift_key (snd acct) = c_str k
          /\ 0 <= fst rnd).
Proof.
  intros Hu acct. rewrite (execute_stages store rnd now key user pre url u Hu).
  fold acct. unfold EINVAL, EPERM. split.
  - intros [out H].
    destruct url as [l|]; [|inversion H].
    destruct pre as [p|]; [|inversion H].
    destruct key as [k|]; [|inversion H].
    exists k, p, l.
    destruct (Z.ltb_spec (fst acct) 0) as [Hn|Hn];
      [inversion H; lia|].
    destruct (bytes_eqb (swift_key (snd acct)) (c_str k)) eqn:E;
      [|inversion H].
    apply bytes_eqb_eq in E. cbn [negb] in H.
    destruct (Z.ltb_spec (fst rnd) 0) as [Hr|Hr]; [inversion H; lia|].
    repeat split; assumption.
  - intros (k & p & l & -> & -> & -> & Hn & Hk & Hr).
    destruct (Z.ltb_spec (fst acct) 0); [lia|].
    rewrite Hk, bytes_eqb_refl. cbn [negb].
    destruct (Z.ltb_spec (fst rnd) 0); [lia|].
    eexists. reflexivity.
Qed.

Lemma execute_issues_token_iff_witness :
  exists out,
    RGW_SWIFT_Auth_Get_execute (Scenario.store Scenario.s3cr3t)
      (0, Scenario.nonce0) Scenario.T0 Examples.env = Some (204, out).
Proof.
  apply (proj2 (execute_issues_token_iff (Scenario.store Scenario.s3cr3t)
                  (0, Scenario.nonce0) Scenario.T0 (Some Scenario.s3cr3t)
                  (Some Scenario.alice) (Some (bytes_of_string "swift"))
                  (Some (bytes_of_string "http://gw.example.com"))
                  Scenario.alice eq_refl)).
  exists Scenario.s3cr3t, (bytes_of_string "swift"),
    (bytes_of_string "http://gw.example.com").
  by_computation.
Defined.

(** X2 - The token that [execute] prints is one the verifier accepts. For
    a request with matching credentials and a successful random draw at
    time [now], [execute] prints the URL header and the token header and
    then makes the closing calls with status 204; and the token in that
    header is accepted by [rgw_swift_verify_signed_token] at every time
    [later] that is not after [now + TTL], seconds and nanoseconds,
    provided the store maps the account's swift name to an account with
    the same key. *)
Theorem execute_token_verifies (store : account_store) (rr nonce : Z)
    (now later : utime_t) (k u p l : bytes) (r r' : Z)
    (acct acct' info0 : RGWUserInfo) :
  store (c_str u) (mk_info [] []) = (r, acct) -> 0 <= r ->
  swift_key acct = c_str k ->
  0 <= rr ->
  0 <= tv_sec now -> tv_sec now + RGW_SWIFT_TOKEN_EXPIRATION < 2 ^ 64 ->
  0 <= tv_nsec now < 2 ^ 32 ->
  2 * (44 + Z.of_nat (length (swift_name acct))) <= INT_MAX ->
  store (swift_name acct) info0 = (r', acct') -> 0 <= r' ->
  swift_key acct' = swift_key acct ->
  utime_lt (utime_add now RGW_SWIFT_TOKEN_EXPIRATION) later = false ->
  exists bl,
    RGW_SWIFT_Auth_Get_execute store (rr, nonce) now
      (mk_env (Some k) (Some u) (Some p) (Some l))
    = Some (204,
            [CGI_PRINTF (storage_url_header l p);
             CGI_PRINTF (storage_token_header bl);
             set_req_state_err 204; dump_errno; end_header])
    /\ rgw_swift_verify_signed_token store later (storage_token bl) info0
       = (0, acct').
Proof.
  intros Hs Hr Hk Hrr Hs0 Hs1 Hns Hfit Hs' Hr' Hk' Hlater.
  exists (snd (encode_token (rr, nonce) now (swift_name acct)
                 (swift_key acct) [])).
  split.
  - rewrite (execute_stages store (rr, nonce) now (Some k) (Some u) (Some p)
               (Some l) u eq_refl).
    cbv zeta. rewrite Hs. cbn [fst snd].
    destruct (Z.ltb_spec r 0); [lia|].
    rewrite Hk, bytes_eqb_refl. cbn [negb].
    destruct (Z.ltb_spec rr 0); [lia|]. reflexivity.
  - apply fresh_token_accepted with (r := r'); assumption.
Qed.

(** The instance: half a second before the expiration. *)
Lemma execute_token_verifies_witness :
  exists bl,
    RGW_SWIFT_Auth_Get_execute (Scenario.store Scenario.s3cr3t)
      (0, Scenario.nonce0) Scenario.T0 Examples.env
    = Some (204,
            [CGI_PRINTF Examples.url_header;
             CGI_PRINTF (storage_token_header bl);
             set_req_state_err 204; dump_errno; end_header])
    /\ rgw_swift_verify_signed_token (Scenario.store Scenario.s3cr3t)
         (mk_utime (tv_sec Scenario.T0 + 899) 500000500)
         (storage_token bl) Scenario.no_info
       = (0, mk_info Scenario.alice Scenario.s3cr3t).
Proof.
  apply (execute_token_verifies (Scenario.store Scenario.s3cr3t) 0
           Scenario.nonce0 Scenario.T0
           (mk_utime (tv_sec Scenario.T0 + 899) 500000500)
           Scenario.s3cr3t Scenario.alice (bytes_of_string "swift")
           (bytes_of_string "http://gw.example.com") 0 0
           (mk_info Scenario.alice Scenario.s3cr3t)
           (mk_info Scenario.alice Scenario.s3cr3t) Scenario.no_info);
    by_computation.
Defined.

(** X3 - What [execute] never does. Whenever it completes: the status is
    204 or negative; the calls it made are [CGI_PRINTF]s of its own
    followed by exactly [set_req_state_err(s, ret)], [dump_errno(s)],
    [end_header(s)] with that status; on a negative status none of its
    [CGI_PRINTF]s is a token header; and it makes no [CGI_PRINTF] at all
    unless the lookup succeeded and the presented key equals the stored
    one. *)
Theorem execute_status_and_output (store : account_store) (rnd : Z * Z)
    (now : utime_t) (env : req_env) (ret : Z) (calls : list rest_call) :
  RGW_SWIFT_Auth_Get_execute store rnd now env = Some (ret, calls) ->
  (ret = 204 \/ ret < 0)
  /\ (exists own : list bytes,
        calls = map CGI_PRINTF own ++ closing_calls ret)
  /\ (ret < 0 -> forall bl, ~ In (CGI_PRINTF (storage_token_header bl)) calls)
  /\ ((exists text, In (CGI_PRINTF text) calls) ->
      exists k u,
        HTTP_X_AUTH_KEY env = Some k /\ HTTP_X_AUTH_USER env = Some u
        /\ 0 <= fst (store (c_str u) (mk_info [] []))
        /\ swift_key (snd (store (c_str u) (mk_info [] []))) = c_str k).
Proof.
  destruct env as [key user pre url]. intros H.
  destruct user as [u|]; [|discriminate H].
  rewrite (execute_stages store rnd now key (Some u) pre url u eq_refl) in H.
  cbv zeta in H.
  cbn [HTTP_X_AUTH_KEY HTTP_X_AUTH_USER]. unfold EINVAL, EPERM in H.
  set (acct := store (c_str u) (mk_info [] [])) in *.
  assert (forall (r : Z) (A : Prop),
            (exists text, In (CGI_PRINTF text) (closing_calls r)) -> A)
    as Hnone.
  { intros r A [text Hin]. cbn in Hin.
    destruct Hin as [F|[F|[F|[]]]]; discriminate F. }
  assert (forall r bl,
            ~ In (CGI_PRINTF (storage_token_header bl)) (closing_calls r))
    as Hclose.
  { intros r bl Hin. apply (Hnone r). now exists (storage_token_header bl). }
  assert (forall r : Z, r < 0 -> Some (r, closing_calls r) = Some (ret, calls)
            -> (ret = 204 \/ ret < 0)
               /\ (exists own : list bytes,
                     calls = map CGI_PRINTF own ++ closing_calls ret)
               /\ (ret < 0 ->
                   forall bl, ~ In (CGI_PRINTF (storage_token_header bl)) calls)
               /\ ((exists text, In (CGI_PRINTF text) calls) ->
                   exists k0 u0,
                     key = Some k0 /\ Some u = Some u0
                     /\ 0 <= fst (store (c_str u0) (mk_info [] []))
                     /\ swift_key (snd (store (c_str u0) (mk_info [] [])))
                        = c_str k0)) as Hsilent.
  { intros r Hr E. inversion E; subst.
    split; [right; exact Hr|]. split; [now exists []|].
    split; [intros _; apply Hclose|apply Hnone]. }
  destruct url as [l|]; [|apply (Hsilent (-22)); [lia|exact H]].
  destruct pre as [p|]; [|apply (Hsilent (-22)); [lia|exact H]].
  destruct key as [k|]; [|apply (Hsilent (-1)); [lia|exact H]].
  destruct (Z.ltb_spec (fst acct) 0) as [Hn|Hn];
    [apply (Hsilent (fst acct)); [exact Hn|exact H]|].
  destruct (bytes_eqb (swift_key (snd acct)) (c_str k)) eqn:E;
    [|apply (Hsilent (-1)); [lia|exact H]].
  apply bytes_eqb_eq in E. cbn [negb] in H.
  assert (exists k0 u0, Some k = Some k0 /\ Some u = Some u0
                        /\ 0 <= fst (store (c_str u0) (mk_info [] []))
                        /\ swift_key (snd (store (c_str u0) (mk_info [] [])))
                           = c_str k0) as Hex
    by (exists k, u; repeat split; assumption).
  destruct (Z.ltb_spec (fst rnd) 0) as [Hr|Hr]; inversion H; subst.
  - split; [right; exact Hr|]. split; [now exists [storage_url_header l p]|].
    split; [|intros _; exact Hex].
    intros _ bl [Hin|Hin]; [|exact (Hclose _ bl Hin)].
    apply (header_url_not_token l p bl).
    exact (f_equal (fun c => match c with CGI_PRINTF t => t | _ => [] end)
             Hin).
  - split; [left; reflexivity|]. split.
    + eexists [storage_url_header l p; storage_token_header _]. reflexivity.
    + split; [lia|intros _; exact Hex].
Qed.

(** The instance: the random source fails after the key matched. *)
Lemma execute_status_and_output_witness :
  let calls := CGI_PRINTF Examples.url_header :: closing_calls (-5) in
  (-5 = 204 \/ -5 < 0)
  /\ (exists own : list bytes,
        calls = map CGI_PRINTF own ++ closing_calls (-5))
  /\ (-5 < 0 -> forall bl, ~ In (CGI_PRINTF (storage_token_header bl)) calls)
  /\ ((exists text, In (CGI_PRINTF text) calls) ->
      exists k u,
        HTTP_X_AUTH_KEY Examples.env = Some k
        /\ HTTP_X_AUTH_USER Examples.env = Some u
        /\ 0 <= fst (Scenario.store Scenario.s3cr3t (c_str u) (mk_info [] []))
        /\ swift_key
             (snd (Scenario.store Scenario.s3cr3t (c_str u) (mk_info [] [])))
           = c_str k).
Proof.
  apply (execute_status_and_output (Scenario.store Scenario.s3cr3t)
           (-5, 0) Scenario.T0 Examples.env (-5)
           (CGI_PRINTF Examples.url_header :: closing_calls (-5))).
  by_computation.
Defined.

(** X4 - The checks of [execute] in order. With the user header present:
    a missing server variable gives [-EINVAL] whatever the credentials;
    then a missing key header gives [-EPERM] without a lookup; then a
    failed lookup gives the store's code; then a key that differs from
    the stored one gives [-EPERM]; on all of these [execute] makes no
    [CGI_PRINTF] and goes straight to the closing calls
    [set_req_state_err], [dump_errno], [end_header]. Last, a failing
    random source gives its code after the URL header has already been
    printed, followed by the same closing calls. *)
Theorem execute_check_order (store : account_store) (rnd : Z * Z)
    (now : utime_t) (key user pre url : option bytes) (u : bytes) :
  user = Some u ->
  let acct := store (c_str u) (mk_info [] []) in
  let result :=
    RGW_SWIFT_Auth_Get_execute store rnd now (mk_env key user pre url) in
  (url = None \/ pre = None ->
   result = Some (- EINVAL, closing_calls (- EINVAL)))
  /\ (forall l p, url = Some l -> pre = Some p ->
        (key = None -> result = Some (- EPERM, closing_calls (- EPERM)))
        /\ (forall k, key = Some k ->
              (fst acct < 0 ->
               result = Some (fst acct, closing_calls (fst acct)))
              /\ (0 <= fst acct ->
                  (swift_key (snd acct) <> c_str k ->
                   result = Some (- EPERM, closing_calls (- EPERM)))
                  /\ (swift_key (snd acct) = c_str k -> fst rnd < 0 ->
                      result
                      = Some (fst rnd,
                              CGI_PRINTF (storage_url_header l p)
                                :: closing_calls (fst rnd)))))).
Proof.
  intros Hu acct result. subst result.
  rewrite (execute_stages store rnd now key user pre url u Hu). fold acct.
  split.
  - intros [->| ->]; [reflexivity|]. now destruct url.
  - intros l p -> ->. split; [intros ->; reflexivity|].
    intros k ->. split.
    + intros Hn. destruct (Z.ltb_spec (fst acct) 0); [reflexivity|lia].
    + intros Hn. destruct (Z.ltb_spec (fst acct) 0); [lia|]. split.
      * intros Hne. apply bytes_eqb_neq in Hne. now rewrite Hne.
      * intros He Hr. rewrite He, bytes_eqb_refl. cbn [negb].
        destruct (Z.ltb_spec (fst rnd) 0); [reflexivity|lia].
Qed.

(** The instances: one request stopped at each of the five checks. *)
Lemma execute_check_order_witness :
  RGW_SWIFT_Auth_Get_execute (Scenario.store Scenario.s3cr3t)
    (0, Scenario.nonce0) Scenario.T0 Examples.env_no_url
  = Some (- EINVAL, closing_calls (- EINVAL))
  /\ RGW_SWIFT_Auth_Get_execute (Scenario.store Scenario.s3cr3t)
       (0, Scenario.nonce0) Scenario.T0 Examples.env_no_key
     = Some (- EPERM, closing_calls (- EPERM))
  /\ RGW_SWIFT_Auth_Get_execute (Scenario.store Scenario.s3cr3t)
       (0, Scenario.nonce0) Scenario.T0 Examples.env_unknown_user
     = Some (- Scenario.ENOENT, closing_calls (- Scenario.ENOENT))
  /\ RGW_SWIFT_Auth_Get_execute (Scenario.store Scenario.s3cr3t)
       (0, Scenario.nonce0) Scenario.T0 Examples.env_bad_key
     = Some (- EPERM, closing_calls (- EPERM))
  /\ RGW_SWIFT_Auth_Get_execute (Scenario.store Scenario.s3cr3t)
       (-5, 0) Scenario.T0 Examples.env
     = Some (-5, CGI_PRINTF Examples.url_header :: closing_calls (-5)).
Proof.
  pose (S := Scenario.store Scenario.s3cr3t).
  pose (sw := bytes_of_string "swift").
  pose (gw := bytes_of_string "http://gw.example.com").
  split; [|split; [|split; [|split]]].
  - apply (proj1 (execute_check_order S (0, Scenario.nonce0) Scenario.T0
                    (Some Scenario.s3cr3t) (Some Scenario.alice) (Some sw)
                    None Scenario.alice eq_refl)).
    left. reflexivity.
  - destruct (proj2 (execute_check_order S (0, Scenario.nonce0) Scenario.T0
                       None (Some Scenario.alice) (Some sw) (Some gw)
                       Scenario.alice eq_refl) gw sw eq_refl eq_refl)
      as [H _].
    exact (H eq_refl).
  - destruct (proj2 (execute_check_order S (0, Scenario.nonce0) Scenario.T0
                       (Some Scenario.s3cr3t) (Some Scenario.bob) (Some sw)
                       (Some gw) Scenario.bob eq_refl) gw sw eq_refl eq_refl)
      as [_ H].
    destruct (H Scenario.s3cr3t eq_refl) as [H1 _].
    apply H1. by_computation.
  - destruct (proj2 (execute_check_order S (0, Scenario.nonce0) Scenario.T0
                       (Some Scenario.other_secret) (Some Scenario.alice)
                       (Some sw) (Some gw) Scenario.alice eq_refl)
                gw sw eq_refl eq_refl) as [_ H].
    destruct (H Scenario.other_secret eq_refl) as [_ H2].
    destruct (H2 ltac:(by_computation)) as [H3 _].
    apply H3. by_computation.
  - destruct (proj2 (execute_check_order S (-5, 0) Scenario.T0
                       (Some Scenario.s3cr3t) (Some Scenario.alice)
                       (Some sw) (Some gw) Scenario.alice eq_refl)
                gw sw eq_refl eq_refl) as [_ H].
    destruct (H Scenario.s3cr3t eq_refl) as [_ H2].
    destruct (H2 ltac:(by_computation)) as [_ H3].
    apply H3; by_computation.
Defined.

(* ================================================================== *)
(** * What acceptance means *)

Lemma verify_accept_inversion (store : account_store) (now : utime_t)
    (token : bytes) (info info' : RGWUserInfo) :
  rgw_swift_verify_signed_token store now token info = (0, info') ->
  let body := skipn 10 token in
  let hex := hex_to_buf (c_str body) in
  strncmp_eq token AUTH_rgwtk 10 = true
  /\ Z.land (int_of_size_t (strlen body)) 1 = 0
  /\ 0 <= fst hex
  /\ exists (u : bytes) (n : Z) (e : utime_t) (r : Z),
       decode_payload (snd hex)
       = Some ((u, n, e), token_mac (swift_key info') u n e)
       /\ utime_lt e now = false
       /\ store u info = (r, info') /\ 0 <= r.
Proof.
  intros H body hex.
  destruct (strncmp_eq token AUTH_rgwtk 10) eqn:Hp.
  2:{ rewrite (verdict_bad_prefix store now token info Hp) in H.
      inversion H. }
  destruct (Z.eq_dec (Z.land (int_of_size_t (strlen body)) 1) 0) as [Hl|Hl].
  2:{ rewrite (verdict_odd_length store now token info Hp Hl) in H.
      inversion H. }
  destruct (Z.lt_ge_cases (fst hex) 0) as [Hh|Hh].
  { rewrite (verdict_bad_hex store now token info Hp Hl Hh) in H.
    apply (f_equal fst) in H. cbn [fst] in H. unfold hex, body in *. lia. }
  rewrite (verdict_buffer store now token info Hp Hl Hh) in H.
  fold body in H. fold hex in H.
  split; [reflexivity|]. split; [exact Hl|]. split; [exact Hh|].
  destruct (decode_payload (snd hex)) as [[[[u n] e] rest]|] eqn:Hd.
  2:{ rewrite (verify_buffer_undecodable store now _ info Hd) in H.
      inversion H. }
  destruct (utime_lt e now) eqn:He.
  { rewrite (verify_buffer_expired store now _ u rest n e info Hd He) in H.
    inversion H. }
  destruct (Z.lt_ge_cases (fst (store u info)) 0) as [Hs|Hs].
  { rewrite (verify_buffer_lookup_failed store now _ u rest n e info Hd He Hs)
      in H.
    rewrite H in Hs. cbn [fst] in Hs. lia. }
  rewrite (verify_buffer_compared store now _ u rest n e info Hd He Hs) in H.
  destruct (bytes_eqb rest _) eqn:E; [|inversion H].
  apply bytes_eqb_eq in E.
  assert (snd (store u info) = info') as Hi
    by (apply (f_equal snd) in H; exact H).
  rewrite Hi in E. subst rest.
  exists u, n, e, (fst (store u info)).
  split; [reflexivity|]. split; [exact He|]. split; [|exact Hs].
  rewrite <- Hi. now destruct (store u info).
Qed.

(** X5 - An accepted token is authentic. Whenever
    [rgw_swift_verify_signed_token] returns 0, the buffer behind the
    token is the serialized payload of some (user, nonce, expiration)
    followed by exactly the MAC of that payload under the key derived
    from the swift key of the returned account; the expiration is not
    before [now]; and the returned account is the one the store gave for
    that user. *)
Theorem accepted_token_is_authentic (store : account_store) (now : utime_t)
    (token : bytes) (info info' : RGWUserInfo) :
  rgw_swift_verify_signed_token store now token info = (0, info') ->
  exists (u : bytes) (n : Z) (e : utime_t) (r : Z),
    snd (hex_to_buf (c_str (skipn 10 token)))
    = payload_bytes u n e
        ++ calc_hmac_sha1 (derive_key (swift_key info')) (payload_bytes u n e)
    /\ utime_lt e now = false
    /\ store u info = (r, info') /\ 0 <= r.
Proof.
  intros H. apply verify_accept_inversion in H. cbv zeta in H.
  destruct H as (_ & _ & _ & u & n & e & r & Hd & He & Hs & Hr).
  exists u, n, e, r. repeat split; try assumption.
  apply decode_payload_inv in Hd. exact (proj1 Hd).
Qed.

Lemma accepted_token_is_authentic_witness :
  exists (u : bytes) (n : Z) (e : utime_t) (r : Z),
    snd (hex_to_buf (c_str (skipn 10 (Scenario.token Scenario.s3cr3t))))
    = payload_bytes u n e
        ++ calc_hmac_sha1 (derive_key Scenario.s3cr3t) (payload_bytes u n e)
    /\ utime_lt e Scenario.T0 = false
    /\ Scenario.store Scenario.s3cr3t u Scenario.no_info
       = (r, mk_info Scenario.alice Scenario.s3cr3t)
    /\ 0 <= r.
Proof.
  apply (accepted_token_is_authentic (Scenario.store Scenario.s3cr3t)
           Scenario.T0 (Scenario.token Scenario.s3cr3t) Scenario.no_info
           (mk_info Scenario.alice Scenario.s3cr3t)).
  by_computation.
Defined.

(* ================================================================== *)
(** * Time *)

Lemma utime_lt_true (a b : utime_t) :
  utime_lt a b = true
  <-> tv_sec a < tv_sec b
      \/ (tv_sec a = tv_sec b /\ tv_nsec a < tv_nsec b).
Proof.
  unfold utime_lt.
  rewrite orb_true_iff, andb_true_iff, !Z.ltb_lt, Z.eqb_eq. reflexivity.
Qed.

Lemma utime_lt_false (a b : utime_t) :
  utime_lt a b = false
  <-> tv_sec b < tv_sec a
      \/ (tv_sec a = tv_sec b /\ tv_nsec b <= tv_nsec a).
Proof.
  rewrite <- not_true_iff_false, utime_lt_true. lia.
Qed.

Lemma utime_not_lt_trans (a b c : utime_t) :
  utime_lt a b = false -> utime_lt b c = false -> utime_lt a c = false.
Proof. rewrite !utime_lt_false. lia. Qed.

Lemma utime_lt_le_trans (a b c : utime_t) :
  utime_lt a b = true -> utime_lt c b = false -> utime_lt a c = true.
Proof. rewrite !utime_lt_true, utime_lt_false. lia. Qed.

(** X6 - Acceptance only looks forward in time. A token accepted at
    [now] is accepted, with the same account, at every time [now'] that
    is not after [now]: nothing in the token says when it starts to be
    valid, only when it ends. *)
Theorem accepted_at_every_earlier_time (store : account_store)
    (now now' : utime_t) (token : bytes) (info info' : RGWUserInfo) :
  rgw_swift_verify_signed_token store now token info = (0, info') ->
  utime_lt now now' = false ->
  rgw_swift_verify_signed_token store now' token info = (0, info').
Proof.
  intros H Hle. apply verify_accept_inversion in H. cbv zeta in H.
  destruct H as (Hp & Hl & Hh & u & n & e & r & Hd & He & Hs & Hr).
  rewrite (verdict_buffer store now' token info Hp Hl Hh).
  rewrite (verify_buffer_decoded store now' _ u _ n e info info' r Hd
             (utime_not_lt_trans e now now' He Hle) Hs Hr).
  now rewrite bytes_eqb_refl.
Qed.

Lemma accepted_at_every_earlier_time_witness :
  rgw_swift_verify_signed_token (Scenario.store Scenario.s3cr3t)
    (mk_utime 0 0) (Scenario.token Scenario.s3cr3t) Scenario.no_info
  = (0, mk_info Scenario.alice Scenario.s3cr3t).
Proof.
  apply (accepted_at_every_earlier_time (Scenario.store Scenario.s3cr3t)
           Scenario.T0 (mk_utime 0 0) (Scenario.token Scenario.s3cr3t)
           Scenario.no_info (mk_info Scenario.alice Scenario.s3cr3t));
    by_computation.
Defined.

(** X7 - Expired stays expired. If a token passes the prefix, length and
    hex checks, its payload decodes, and its expiration is before [now],
    then at every time [now'] that is not before [now] the verifier
    returns [-EPERM] and leaves [info] alone, whatever the account store
    holds. *)
Theorem expired_stays_expired (store : account_store) (now now' : utime_t)
    (token bl : bytes) (ret : Z) (u rest : bytes) (n : Z) (e : utime_t)
    (info : RGWUserInfo) :
  strncmp_eq token AUTH_rgwtk 10 = true ->
  Z.land (int_of_size_t (strlen (skipn 10 token))) 1 = 0 ->
  hex_to_buf (c_str (skipn 10 token)) = (ret, bl) -> 0 <= ret ->
  decode_payload bl = Some ((u, n, e), rest) ->
  utime_lt e now = true ->
  utime_lt now' now = false ->
  rgw_swift_verify_signed_token store now' token info = (- EPERM, info).
Proof.
  intros Hp Hl Hh Hr Hd He Hle.
  rewrite (verify_reaches_buffer store now' token bl ret info Hp Hl Hh Hr).
  apply (verify_buffer_expired store now' bl u rest n e info Hd).
  exact (utime_lt_le_trans e now now' He Hle).
Qed.

Lemma expired_stays_expired_witness :
  rgw_swift_verify_signed_token (Scenario.store Scenario.s3cr3t)
    (utime_add Scenario.T0 5000) (Scenario.token Scenario.s3cr3t)
    Scenario.no_info
  = (- EPERM, Scenario.no_info).
Proof.
  apply (expired_stays_expired (Scenario.store Scenario.s3cr3t)
           (utime_add Scenario.T0 901) (utime_add Scenario.T0 5000)
           (Scenario.token Scenario.s3cr3t)
           (Scenario.token_bl Scenario.s3cr3t) 49 Scenario.alice
           (token_mac Scenario.s3cr3t Scenario.alice Scenario.nonce0
              (utime_add Scenario.T0 RGW_SWIFT_TOKEN_EXPIRATION))
           Scenario.nonce0
           (utime_add Scenario.T0 RGW_SWIFT_TOKEN_EXPIRATION)
           Scenario.no_info); by_computation.
Defined.

(* ================================================================== *)
(** * Short tokens *)

Lemma hex_to_buf_result_aux (n : nat) :
  forall h : bytes, (length h <= n)%nat ->
    (hex_to_buf h = (- EINVAL, []))
    \/ (exists bl, hex_to_buf h = (Z.of_nat (length bl), bl)
                   /\ length h = (2 * length bl)%nat).
Proof.
  induction n as [|n IH]; intros h Hn.
  - destruct h; [|cbn [length] in Hn; lia].
    right. exists []. split; reflexivity.
  - destruct h as [|a [|b h]].
    + right. exists []. split; reflexivity.
    + left. reflexivity.
    + cbn [hex_to_buf].
      destruct ((hexdigit a <? 0) || (hexdigit b <? 0)); [now left|].
      cbn [length] in Hn.
      destruct (IH h ltac:(lia)) as [E|[bl [E L]]]; rewrite E.
      * left. reflexivity.
      * right. destruct (Z.ltb_spec (Z.of_nat (length bl)) 0); [lia|].
        exists (byte_of_Z (hexdigit a * 16 + hexdigit b) :: bl). split.
        -- cbn [length]. rewrite Nat2Z.inj_succ. f_equal.
        -- cbn [length]. lia.
Qed.

Lemma hex_to_buf_result (h : bytes) :
  (hex_to_buf h = (- EINVAL, []))
  \/ (exists bl, hex_to_buf h = (Z.of_nat (length bl), bl)
                 /\ length h = (2 * length bl)%nat).
Proof. apply (hex_to_buf_result_aux (length h)). lia. Qed.

Lemma decode_payload_min (bl : bytes) (x : bytes * Z * utime_t * bytes) :
  decode_payload bl = Some x -> (24 <= length bl)%nat.
Proof.
  destruct x as [[[u n] e] rest]. intros H.
  apply decode_payload_inv in H. destruct H as [-> Hu].
  rewrite length_app, payload_bytes_length by assumption. lia.
Qed.

Lemma c_str_split (n : nat) :
  forall t : bytes,
    length (firstn n (c_str t)) = n ->
    c_str t = firstn n (c_str t) ++ c_str (skipn n t).
Proof.
  induction n as [|n IH]; intros t H; [reflexivity|].
  destruct t as [|c t]; [discriminate H|].
  cbn [c_str] in *. destruct (Ascii.eqb c NUL); [discriminate H|].
  cbn [firstn skipn length app] in *. f_equal. apply IH. lia.
Qed.

Lemma prefix_strlen (token : bytes) :
  strncmp_eq token AUTH_rgwtk 10 = true ->
  strlen token = 10 + strlen (skipn 10 token).
Proof.
  unfold strncmp_eq. intros H. apply bytes_eqb_eq in H.
  change (firstn 10 (c_str AUTH_rgwtk)) with AUTH_rgwtk in H.
  unfold strlen. rewrite (c_str_split 10 token) by (now rewrite H).
  rewrite H, length_app. change (length AUTH_rgwtk) with 10%nat. lia.
Qed.

(** X8 - Tokens too short to hold a payload. Every token string with
    fewer characters than the prefix and the hex of the smallest payload
    that [build_token] serializes (the one of an empty user name, two hex
    digits for each of its bytes) is refused with [-EINVAL], with [info]
    untouched, at every time and for every account store; the empty
    string and the bare prefix are such strings. The bound is the length
    of that serialization, whatever the widths of its fields. *)
Theorem short_token_rejected (store : account_store) (now : utime_t)
    (token : bytes) (info : RGWUserInfo) :
  strlen token
  < 10 + 2 * Z.of_nat (length (payload_bytes [] 0 (mk_utime 0 0))) ->
  rgw_swift_verify_signed_token store now token info = (- EINVAL, info).
Proof.
  intros Hlen.
  assert (forall (bl : bytes) (x : bytes * Z * utime_t * bytes),
            decode_payload bl = Some x ->
            (length (payload_bytes [] 0 (mk_utime 0 0)) <= length bl)%nat)
    as Hmin by (intros bl x D; exact (decode_payload_min bl x D)).
  set (m := length (payload_bytes [] 0 (mk_utime 0 0))) in *.
  destruct (strncmp_eq token AUTH_rgwtk 10) eqn:Hp;
    [|now apply verdict_bad_prefix].
  pose proof (prefix_strlen token Hp) as Hs.
  assert (0 <= strlen (skipn 10 token) < 2 * Z.of_nat m) as Hb
    by (unfold strlen in *; lia).
  destruct (Z.eq_dec (Z.land (int_of_size_t (strlen (skipn 10 token))) 1) 0)
    as [Hl|Hl]; [|now apply verdict_odd_length].
  destruct (hex_to_buf_result (c_str (skipn 10 token))) as [E|[bl [E L]]].
  - rewrite (verdict_bad_hex store now token info Hp Hl); rewrite E;
      [reflexivity|cbn [fst]; unfold EINVAL; lia].
  - rewrite (verify_reaches_buffer store now token bl
               (Z.of_nat (length bl)) info Hp Hl E) by lia.
    apply verify_buffer_undecodable.
    destruct (decode_payload bl) eqn:D; [|reflexivity].
    apply Hmin in D. unfold strlen in Hb. lia.
Qed.

Lemma short_token_rejected_witness :
  rgw_swift_verify_signed_token (Scenario.store Scenario.s3cr3t) Scenario.T0
    [] Scenario.no_info
  = (- EINVAL, Scenario.no_info)
  /\ rgw_swift_verify_signed_token (Scenario.store Scenario.s3cr3t)
       Scenario.T0 AUTH_rgwtk Scenario.no_info
     = (- EINVAL, Scenario.no_info).
Proof.
  split;
    apply (short_token_rejected (Scenario.store Scenario.s3cr3t) Scenario.T0);
    by_computation.
Defined.

(* ================================================================== *)
(** * Distinct tokens *)

(** X9 - A token determines what it was made for. If [build_token]
    produces the same buffer for two (user, nonce, expiration) triples,
    whatever the two keys, then the users are equal, the nonces are equal
    as 64-bit values and the expirations are equal as they go on the
    wire; so two draws of different nonces never give the same token. *)
Theorem build_token_injective (u u' key key' : bytes) (n n' : Z)
    (e e' : utime_t) :
  Z.of_nat (length u) < 2 ^ 32 -> Z.of_nat (length u') < 2 ^ 32 ->
  snd (build_token u key n e []) = snd (build_token u' key' n' e' []) ->
  u = u' /\ n mod 2 ^ 64 = n' mod 2 ^ 64 /\ wire_time e = wire_time e'.
Proof.
  intros Hu Hu' H. rewrite !build_token_nil in H. cbn [snd] in H.
  apply (f_equal decode_payload) in H.
  rewrite !decode_payload_app in H by assumption.
  inversion H. repeat split; try assumption.
  unfold wire_time. congruence.
Qed.

Lemma build_token_injective_witness :
  Scenario.alice = Scenario.alice
  /\ Scenario.nonce0 mod 2 ^ 64 = (Scenario.nonce0 + 2 ^ 64) mod 2 ^ 64
  /\ wire_time Scenario.T0 = wire_time Scenario.T0.
Proof.
  apply (build_token_injective Scenario.alice Scenario.alice Scenario.s3cr3t
           Scenario.s3cr3t Scenario.nonce0 (Scenario.nonce0 + 2 ^ 64)
           Scenario.T0 Scenario.T0); by_computation.
Defined.

(* ================================================================== *)
(** * Keys from short secrets *)

Lemma upd_app_here (a rest : bytes) (x c : ascii) :
  upd (a ++ x :: rest) (length a) c = a ++ c :: rest.
Proof. induction a as [|y a IH]; simpl; [reflexivity|now rewrite IH]. Qed.

Lemma derive_spec_short (s : bytes) :
  (length s <= CEPH_CRYPTO_HMACSHA1_DIGESTSIZE)%nat ->
  derive_spec s
  = s ++ repeat NUL (CEPH_CRYPTO_HMACSHA1_DIGESTSIZE - length s).
Proof.
  induction s as [|c s IH] using rev_ind; intros H; [reflexivity|].
  rewrite length_app in H. cbn [length] in H.
  rewrite derive_spec_snoc. cbv zeta. rewrite IH by lia.
  rewrite Nat.mod_small by lia.
  replace (CEPH_CRYPTO_HMACSHA1_DIGESTSIZE - length s)%nat
    with (S (CEPH_CRYPTO_HMACSHA1_DIGESTSIZE - length (s ++ [c])))
    by (rewrite length_app; cbn [length]; lia).
  cbn [repeat]. rewrite nth_middle, byte_or_NUL_l, upd_app_here.
  now rewrite <- app_assoc.
Qed.

Lemma c_str_padded (s : bytes) (k : nat) :
  ~ In NUL s -> c_str (s ++ repeat NUL k) = s.
Proof.
  induction s as [|c s IH]; intros H.
  - destruct k; reflexivity.
  - cbn [app c_str]. destruct (Ascii.eqb_spec c NUL) as [->|_].
    + exfalso. apply H. now left.
    + f_equal. apply IH. intros Hin. apply H. now right.
Qed.

(** X10 - Secrets of at most 20 characters. For a secret no longer than
    the digest size, the key that [build_token] derives is the secret
    itself padded with zero bytes to 20; hence two such secrets without
    NUL characters that derive the same key are the same secret: the
    collisions of the OR fold need a longer secret. *)
Theorem short_secret_key (s : bytes) :
  (length s <= 20)%nat ->
  derive_key s = s ++ repeat NUL (20 - length s)
  /\ (forall s' : bytes,
        (length s' <= 20)%nat -> ~ In NUL s -> ~ In NUL s' ->
        derive_key s = derive_key s' -> s = s').
Proof.
  intros H.
  assert (forall t : bytes, (length t <= 20)%nat ->
            derive_key t = t ++ repeat NUL (20 - length t)) as K.
  { intros t Ht. rewrite derive_key_spec by (unfold INT_MAX; lia).
    now apply derive_spec_short. }
  split; [now apply K|].
  intros s' H' Hs Hs' E. rewrite (K s H), (K s' H') in E.
  apply (f_equal c_str) in E. now rewrite !c_str_padded in E.
Qed.

Lemma short_secret_key_witness :
  derive_key Scenario.s3cr3t
  = Scenario.s3cr3t ++ repeat NUL (20 - length Scenario.s3cr3t)
  /\ (forall s' : bytes,
        (length s' <= 20)%nat -> ~ In NUL Scenario.s3cr3t -> ~ In NUL s' ->
        derive_key Scenario.s3cr3t = derive_key s' -> Scenario.s3cr3t = s').
Proof.
  apply (short_secret_key Scenario.s3cr3t). by_computation.
Defined.

(* ================================================================== *)
(** * rbd: C strings *)

Lemma c_str_NUL_free (s : bytes) : ~ In NUL s -> c_str s = s.
Proof.
  intros H. rewrite <- (app_nil_r s) at 1.
  exact (c_str_padded s 0 H).
Qed.

Lemma c_str_no_NUL (s : bytes) : ~ In NUL (c_str s).
Proof.
  induction s as [|c s IH]; [intros []|].
  cbn [c_str]. destruct (Ascii.eqb_spec c NUL) as [E|E]; [intros []|].
  intros [H|H]; [congruence|contradiction].
Qed.

Lemma c_str_idem (s : bytes) : c_str (c_str s) = c_str s.
Proof. apply c_str_NUL_free, c_str_no_NUL. Qed.

Lemma c_str_skipn (n : nat) :
  forall s : bytes,
    (n <= length (c_str s))%nat -> c_str (skipn n s) = skipn n (c_str s).
Proof.
  induction n as [|n IH]; intros s H; [reflexivity|].
  destruct s as [|c s]; [reflexivity|].
  cbn [c_str] in *. destruct (Ascii.eqb c NUL); [cbn [length] in H; lia|].
  cbn [skipn length] in *. apply IH. lia.
Qed.

Lemma c_str_upd_NUL (i : nat) :
  forall s : bytes,
    (i < length (c_str s))%nat -> c_str (upd s i NUL) = firstn i (c_str s).
Proof.
  induction i as [|i IH]; intros s H.
  - destruct s as [|c s]; [cbn in H; lia|]. reflexivity.
  - destruct s as [|c s]; [cbn in H; lia|].
    cbn [c_str upd] in *.
    destruct (Ascii.eqb c NUL); [cbn [length] in H; lia|].
    cbn [firstn length] in *. f_equal. apply IH. lia.
Qed.

Lemma strrchr_c_str (s : bytes) (c : ascii) :
  strrchr (c_str s) c = strrchr s c.
Proof.
  induction s as [|x s IH]; [reflexivity|].
  cbn [c_str strrchr]. destruct (Ascii.eqb x NUL) eqn:E; [reflexivity|].
  cbn [strrchr]. now rewrite E, IH.
Qed.

Lemma strchr_c_str (s : bytes) (c : ascii) : strchr (c_str s) c = strchr s c.
Proof.
  induction s as [|x s IH]; [reflexivity|].
  cbn [c_str strchr]. destruct (Ascii.eqb x NUL) eqn:E; [reflexivity|].
  cbn [strchr]. now rewrite E, IH.
Qed.

Lemma strrchr_None (s : bytes) (c : ascii) :
  strrchr s c = None -> ~ In c (c_str s).
Proof.
  induction s as [|x s IH]; [intros _ []|].
  cbn [strrchr c_str]. destruct (Ascii.eqb x NUL); [intros _ []|].
  destruct (strrchr s c); [discriminate|].
  destruct (Ascii.eqb_spec x c) as [E|E]; [discriminate|].
  intros _ [H|H]; [contradiction|]. now apply IH.
Qed.

(** The offset [strrchr] finds splits the string at its last [c]. *)
Lemma strrchr_Some (s : bytes) (c : ascii) (i : nat) :
  strrchr s c = Some i ->
  c_str s = firstn i (c_str s) ++ c :: skipn (S i) (c_str s)
  /\ (i < length (c_str s))%nat
  /\ ~ In c (skipn (S i) (c_str s)).
Proof.
  revert i. induction s as [|x s IH]; intros i; [discriminate|].
  cbn [strrchr c_str]. destruct (Ascii.eqb x NUL); [discriminate|].
  destruct (strrchr s c) as [j|] eqn:E.
  - intros H. inversion H; subst i. destruct (IH j eq_refl) as (A & B & C).
    split; [|split].
    + cbn [firstn app]. change (skipn (S (S j)) (x :: c_str s))
        with (skipn (S j) (c_str s)). f_equal. exact A.
    + cbn [length]. lia.
    + exact C.
  - destruct (Ascii.eqb_spec x c) as [->|Hx]; [|discriminate].
    intros H. inversion H; subst i.
    change (skipn 1 (c :: c_str s)) with (c_str s).
    split; [reflexivity|]. split; [cbn [length]; lia|].
    now apply strrchr_None.
Qed.

Lemma strchr_at (p rest : bytes) (c : ascii) :
  ~ In NUL p -> ~ In c p -> c <> NUL ->
  strchr (p ++ c :: rest) c = Some (length p).
Proof.
  intros Hn Hc Hcn. induction p as [|x p IH].
  - cbn [app strchr length]. destruct (Ascii.eqb_spec c NUL); [contradiction|].
    now rewrite Ascii.eqb_refl.
  - cbn [app strchr length].
    destruct (Ascii.eqb_spec x NUL) as [->|_];
      [exfalso; apply Hn; now left|].
    destruct (Ascii.eqb_spec x c) as [->|_];
      [exfalso; apply Hc; now left|].
    rewrite IH; [reflexivity| |]; intros Hin; [apply Hn|apply Hc];
      now right.
Qed.

Lemma strrchr_absent (s : bytes) (c : ascii) :
  ~ In c s -> strrchr s c = None.
Proof.
  induction s as [|x s IH]; intros H; [reflexivity|].
  cbn [strrchr]. destruct (Ascii.eqb x NUL); [reflexivity|].
  rewrite IH by (intros Hin; apply H; now right).
  destruct (Ascii.eqb_spec x c) as [->|_]; [|reflexivity].
  exfalso. apply H. now left.
Qed.

Lemma strrchr_at (p rest : bytes) (c : ascii) :
  ~ In NUL p -> ~ In c rest -> c <> NUL ->
  strrchr (p ++ c :: rest) c = Some (length p).
Proof.
  intros Hn Hc Hcn. induction p as [|x p IH].
  - cbn [app strrchr length].
    destruct (Ascii.eqb_spec c NUL); [contradiction|].
    rewrite strrchr_absent by assumption. now rewrite Ascii.eqb_refl.
  - cbn [app strrchr length].
    destruct (Ascii.eqb_spec x NUL) as [->|_];
      [exfalso; apply Hn; now left|].
    rewrite IH by (intros Hin; apply Hn; now right). reflexivity.
Qed.

(* ================================================================== *)
(** * rbd: image names *)

(** X11 - [imgname_from_path] is the base name. The string it returns
    has no ['/'] in it, and the path is a directory part followed by that
    string, where the directory part is empty or ends in ['/']; so a
    path that ends in ['/'] gives the empty name. *)
Theorem imgname_from_path_basename (path : bytes) :
  let name := c_str (imgname_from_path path) in
  ~ In "/"%char name
  /\ (exists dir : bytes,
        c_str path = dir ++ name
        /\ (dir = [] \/ exists d, dir = d ++ ["/"%char]))
  /\ (forall d, c_str path = d ++ ["/"%char] -> name = []).
Proof.
  cbv zeta. unfold imgname_from_path.
  assert (forall name dir : bytes,
            ~ In "/"%char name ->
            forall d, dir ++ name = d ++ ["/"%char] -> name = []) as Last.
  { intros name dir Hn d E.
    destruct name as [|x name] using rev_ind; [reflexivity|].
    rewrite app_assoc in E. apply app_inj_tail in E. destruct E as [_ ->].
    exfalso. apply Hn. apply in_or_app. right. now left. }
  destruct (strrchr path "/") as [i|] eqn:E.
  - destruct (strrchr_Some path "/" i E) as (A & B & C).
    rewrite c_str_skipn by lia.
    split; [exact C|]. split.
    + exists (firstn i (c_str path) ++ ["/"%char]). split.
      * rewrite <- app_assoc. exact A.
      * right. now exists (firstn i (c_str path)).
    + intros d Hd. apply (Last _ (firstn i (c_str path) ++ ["/"%char]) C d).
      rewrite <- app_assoc. cbn [app]. now rewrite <- A.
  - pose proof (strrchr_None path "/" E) as N.
    split; [exact N|]. split.
    + exists []. split; [reflexivity|now left].
    + intros d Hd. now apply (Last _ [] N d).
Qed.

Lemma update_snap_name_at (imgname : bytes) (cur : option bytes) (i : nat) :
  strrchr imgname "@" = Some i ->
  update_snap_name imgname (Some cur)
  = (upd imgname i NUL,
     if negb (Ascii.eqb (nth 0 (skipn (S i) imgname) NUL) NUL)
     then Some (Some (skipn (S i) imgname)) else Some cur).
Proof.
  intros E. unfold update_snap_name. rewrite E. now destruct (negb _).
Qed.

Lemma update_snap_name_none (imgname : bytes) (snap : option (option bytes)) :
  strrchr imgname "@" = None -> update_snap_name imgname snap = (imgname, snap).
Proof. intros E. unfold update_snap_name. now rewrite E. Qed.

(** X12 - [update_snap_name] splits at the last ['@']. Without an ['@']
    in the name, neither the name nor [*snap] changes. With one, the old
    name is the new name, an ['@'], and a rest that has no ['@'] in it;
    [*snap] becomes that rest when it is not empty, and keeps its value
    when it is (a name that ends in ['@']). *)
Theorem update_snap_name_split (imgname : bytes) (cur : option bytes) :
  let img' := fst (update_snap_name imgname (Some cur)) in
  let snap' := snd (update_snap_name imgname (Some cur)) in
  (~ In "@"%char (c_str imgname) -> img' = imgname /\ snap' = Some cur)
  /\ (In "@"%char (c_str imgname) ->
      exists rest : bytes,
        c_str imgname = c_str img' ++ "@"%char :: rest
        /\ ~ In "@"%char rest
        /\ (rest = [] -> snap' = Some cur)
        /\ (rest <> [] ->
            exists s, snap' = Some (Some s) /\ c_str s = rest)).
Proof.
  cbv zeta.
  destruct (strrchr imgname "@") as [i|] eqn:E.
  - rewrite (update_snap_name_at imgname cur i E). cbn [fst snd].
    destruct (strrchr_Some imgname "@" i E) as (A & B & C). split.
    + intros N. exfalso. apply N. rewrite A. apply in_or_app. right.
      now left.
    + intros _. exists (skipn (S i) (c_str imgname)).
      assert (c_str (skipn (S i) imgname) = skipn (S i) (c_str imgname))
        as Hs by (apply c_str_skipn; lia).
      rewrite c_str_upd_NUL by assumption.
      split; [exact A|]. split; [exact C|].
      rewrite <- Hs.
      destruct (skipn (S i) imgname) as [|x t]; cbn [nth c_str].
      * split; [reflexivity|intros F; now contradict F].
      * destruct (Ascii.eqb x NUL) eqn:Ex; cbn [negb].
        -- split; [reflexivity|intros F; now contradict F].
        -- split; [discriminate|]. intros _. eexists. split; [reflexivity|].
           cbn [c_str]. now rewrite Ex.
  - rewrite (update_snap_name_none imgname (Some cur) E). cbn [fst snd].
    split; [intros _; split; reflexivity|].
    intros H. exfalso. exact (strrchr_None imgname "@" E H).
Qed.

Lemma update_snap_name_split_witness :
  exists rest : bytes,
    c_str (bytes_of_string "vm1@monday")
    = c_str (fst (update_snap_name (bytes_of_string "vm1@monday")
                    (Some None)))
        ++ "@"%char :: rest
    /\ ~ In "@"%char rest
    /\ (rest = [] ->
        snd (update_snap_name (bytes_of_string "vm1@monday") (Some None))
        = Some None)
    /\ (rest <> [] ->
        exists s,
          snd (update_snap_name (bytes_of_string "vm1@monday") (Some None))
          = Some (Some s)
          /\ c_str s = rest).
Proof.
  apply (proj2 (update_snap_name_split (bytes_of_string "vm1@monday") None)).
  vm_compute. tauto.
Defined.

Ltac not_among := vm_compute; intuition discriminate.

Lemma skipn_app_here (a rest : bytes) (x : ascii) :
  skipn (S (length a)) (a ++ x :: rest) = rest.
Proof. induction a as [|y a IH]; [reflexivity|exact IH]. Qed.

Lemma c_str_app_NUL (a rest : bytes) :
  ~ In NUL a -> c_str (a ++ NUL :: rest) = a.
Proof.
  induction a as [|c a IH]; intros H; [reflexivity|].
  cbn [app c_str]. destruct (Ascii.eqb_spec c NUL) as [->|_].
  - exfalso. apply H. now left.
  - f_equal. apply IH. intros Hin. apply H. now right.
Qed.

Lemma not_in_app_cons (a b : bytes) (x c : ascii) :
  ~ In c a -> c <> x -> ~ In c b -> ~ In c (a ++ x :: b).
Proof.
  intros Ha Hx Hb Hin. apply in_app_or in Hin.
  destruct Hin as [Hin|[Hin|Hin]]; [contradiction|congruence|contradiction].
Qed.

(** X13 - [set_pool_image_name] reads "pool/image@snap". With no pool
    given beforehand, the argument made of a pool name without ['/'], a
    ['/'], an image name, an ['@'] and a non-empty snapshot name without
    ['@'] is taken apart into exactly these three strings. With a pool
    given beforehand nothing is taken apart: pool, image and snapshot
    stay as they were, an ['@'] in the image name included. *)
Theorem set_pool_image_name_parses (p i sn : bytes)
    (new_pool new_img cur : option bytes) :
  ~ In NUL p -> ~ In "/"%char p -> ~ In NUL i -> ~ In NUL sn ->
  ~ In "@"%char sn -> sn <> [] ->
  (exists P I S : bytes,
      set_pool_image_name None
        (Some (p ++ "/"%char :: i ++ "@"%char :: sn)) new_pool new_img
        (Some cur)
      = (Some P, Some I, Some (Some S))
      /\ c_str P = p /\ c_str I = i /\ c_str S = sn)
  /\ (forall (pool : bytes) (img : option bytes)
             (snap : option (option bytes)),
        set_pool_image_name (Some pool) img new_pool new_img snap
        = (new_pool, new_img, snap)).
Proof.
  intros Hp Hps Hi Hsn Hat Hne. split; [|reflexivity].
  set (img := i ++ "@"%char :: sn).
  assert (~ In NUL img) as Himg
    by (apply not_in_app_cons; [assumption|discriminate|assumption]).
  assert (~ In NUL (p ++ "/"%char :: img)) as Hall
    by (apply not_in_app_cons; [assumption|discriminate|assumption]).
  unfold set_pool_image_name.
  rewrite strchr_at by (assumption || discriminate).
  unfold strdup. rewrite (c_str_NUL_free _ Hall).
  rewrite skipn_app_here, upd_app_here, (c_str_NUL_free _ Himg).
  assert (strrchr img "@" = Some (length i)) as E
    by (apply strrchr_at; assumption || discriminate).
  rewrite (update_snap_name_at img cur (length i) E).
  unfold img at 2 3 4. rewrite skipn_app_here, upd_app_here.
  destruct sn as [|x sn']; [now contradict Hne|].
  cbn [nth]. destruct (Ascii.eqb_spec x NUL) as [->|_];
    [exfalso; apply Hsn; now left|].
  cbn [negb]. eexists. eexists. eexists. split; [reflexivity|].
  split; [now apply c_str_app_NUL|].
  split; [now apply c_str_app_NUL|now apply c_str_NUL_free].
Qed.

Lemma set_pool_image_name_parses_witness :
  exists P I S : bytes,
    set_pool_image_name None (Some Examples.pool_image_snap) None None
      (Some None)
    = (Some P, Some I, Some (Some S))
    /\ c_str P = bytes_of_string "rbd"
    /\ c_str I = bytes_of_string "vm1"
    /\ c_str S = bytes_of_string "monday".
Proof.
  apply (proj1 (set_pool_image_name_parses (bytes_of_string "rbd")
                  (bytes_of_string "vm1") (bytes_of_string "monday")
                  None None None
                  ltac:(not_among) ltac:(not_among) ltac:(not_among)
                  ltac:(not_among) ltac:(not_among) ltac:(discriminate))).
Defined.

(* ================================================================== *)
(** * rbd: commands and positional arguments *)

Ltac cases_in_order :=
  repeat lazymatch goal with
         | |- context [if ?b then _ else _] =>
             destruct b; [repeat split; auto; discriminate|]
         end.

(** X14 - The three command groups of [get_cmd] do not mix. After
    "snap" the result is a snapshot command or OPT_NO_CMD; after "lock"
    it is a lock command or OPT_NO_CMD; without either it is never a
    snapshot or lock command. The snapshot group wins when both flags
    are set. *)
Theorem get_cmd_groups (cmd : bytes) (lockcmd : bool) :
  (get_cmd cmd true lockcmd = OPT_NO_CMD
   \/ is_snap_cmd (get_cmd cmd true lockcmd) = true)
  /\ (get_cmd cmd false true = OPT_NO_CMD
      \/ is_lock_cmd (get_cmd cmd false true) = true)
  /\ (is_snap_cmd (get_cmd cmd false false) = false
      /\ is_lock_cmd (get_cmd cmd false false) = false)
  /\ get_cmd cmd true lockcmd = get_cmd cmd true (negb lockcmd).
Proof.
  split; [|split; [|split]].
  - unfold get_cmd. destruct lockcmd; cbn [negb andb];
      cases_in_order; now left.
  - unfold get_cmd. cbn [negb andb]. cases_in_order. now left.
  - unfold get_cmd. cbn [negb andb]. cases_in_order. now split.
  - now destruct lockcmd.
Qed.

Lemma positional_args_full (args : list bytes) (x y : bytes) :
  positional_args args (Some x) (Some y) = (Some x, Some y).
Proof.
  unfold positional_args. induction args as [|a args IH]; [reflexivity|].
  cbn [fold_left]. exact IH.
Qed.

(** X15 - Positional arguments fill what is still unset, in order, and
    never overwrite. For a command with two positional arguments: the
    first two arguments are taken and every later one is ignored
    without an error; a value already set by an option is kept, and the
    first positional argument then goes to the second variable. *)
Theorem positional_args_first_unset (a b x : bytes) (args : list bytes) :
  positional_args (a :: b :: args) None None = (Some a, Some b)
  /\ positional_args (a :: args) (Some x) None = (Some x, Some a)
  /\ (forall v2, fst (positional_args args (Some x) v2) = Some x)
  /\ (forall y, positional_args args (Some x) (Some y) = (Some x, Some y)).
Proof.
  split; [|split; [|split]].
  - unfold positional_args. cbn [fold_left set_conf_param fst snd].
    apply positional_args_full.
  - unfold positional_args. cbn [fold_left set_conf_param fst snd].
    apply positional_args_full.
  - intros v2. destruct args as [|c args]; [reflexivity|].
    destruct v2 as [y|].
    + now rewrite positional_args_full.
    + unfold positional_args. cbn [fold_left set_conf_param fst snd].
      fold (positional_args args (Some x) (Some c)).
      now rewrite positional_args_full.
  - intros y. apply positional_args_full.
Qed.

(* ================================================================== *)
(** * rbd: progress *)

Lemma update_progress_unfold (ctx : MyProgressContext) (offset total pc : Z) :
  int_of_size_t
    (if total =? 0 then 0 else (offset * 100) mod 2 ^ 64 / total) = pc ->
  update_progress ctx offset total
  = if negb (pc =? last_pc ctx) then
      (0, mk_progress (operation ctx) pc,
       Some (CR :: operation ctx ++ bytes_of_string ": " ++ decimal pc
               ++ bytes_of_string "% complete..."))
    else (0, ctx, None).
Proof. intros <-. reflexivity. Qed.

(** X16 - The percentage of [update_progress]. For a non-zero [total],
    an [offset] up to [total] and no overflow of [offset * 100] in 64
    bits, the call returns 0 and leaves [last_pc] at
    [offset * 100 / total], which lies between 0 and 100 and is 100
    exactly when [offset = total]; something is printed exactly when
    that value differs from the previous [last_pc], so repeating the
    call prints nothing. *)
Theorem update_progress_percent (ctx : MyProgressContext) (offset total : Z) :
  0 < total -> 0 <= offset <= total -> offset * 100 < 2 ^ 64 ->
  let ret := fst (fst (update_progress ctx offset total)) in
  let ctx' := snd (fst (update_progress ctx offset total)) in
  let printed := snd (update_progress ctx offset total) in
  ret = 0
  /\ last_pc ctx' = offset * 100 / total
  /\ 0 <= last_pc ctx' <= 100
  /\ (last_pc ctx' = 100 <-> offset = total)
  /\ (printed = None <-> last_pc ctx = offset * 100 / total)
  /\ update_progress ctx' offset total = (0, ctx', None).
Proof.
  intros Ht Ho Hov. cbv zeta.
  assert (0 <= offset * 100 / total <= 100) as Hpc.
  { split; [apply Z.div_pos; lia|].
    apply Z.div_le_upper_bound; lia. }
  assert (int_of_size_t
            (if total =? 0 then 0 else (offset * 100) mod 2 ^ 64 / total)
          = offset * 100 / total) as Epc.
  { destruct (Z.eqb_spec total 0); [lia|].
    rewrite Z.mod_small by lia.
    apply int_of_size_t_small. unfold INT_MAX. lia. }
  assert (offset * 100 / total = 100 <-> offset = total) as H100.
  { split.
    - intros E.
      assert (offset * 100 / total * total <= offset * 100)
        by (rewrite Z.mul_comm; apply Z.mul_div_le; lia).
      nia.
    - intros ->. rewrite Z.mul_comm. apply Z.div_mul. lia. }
  rewrite (update_progress_unfold ctx offset total _ Epc).
  destruct (Z.eqb_spec (offset * 100 / total) (last_pc ctx)) as [E|E];
    cbn [negb fst snd last_pc].
  - rewrite (update_progress_unfold ctx offset total _ Epc).
    rewrite <- E, Z.eqb_refl. cbn [negb].
    repeat split; try tauto; try lia.
  - rewrite (update_progress_unfold _ offset total _ Epc).
    cbn [last_pc operation]. rewrite Z.eqb_refl. cbn [negb].
    repeat split; try tauto; try lia; try discriminate.
Qed.

Lemma update_progress_percent_witness :
  let ctx := mk_progress (bytes_of_string "Exporting image") 0 in
  let ret := fst (fst (update_progress ctx 512 1024)) in
  let ctx' := snd (fst (update_progress ctx 512 1024)) in
  let printed := snd (update_progress ctx 512 1024) in
  ret = 0
  /\ last_pc ctx' = 512 * 100 / 1024
  /\ 0 <= last_pc ctx' <= 100
  /\ (last_pc ctx' = 100 <-> 512 = 1024)
  /\ (printed = None <-> last_pc ctx = 512 * 100 / 1024)
  /\ update_progress ctx' 512 1024 = (0, ctx', None).
Proof.
  apply (update_progress_percent
           (mk_progress (bytes_of_string "Exporting image") 0) 512 1024);
    by_computation.
Defined.

Example update_progress_text :
  snd (update_progress (mk_progress (bytes_of_string "Exporting image") 0)
         512 1024)
  = Some (CR :: bytes_of_string "Exporting image: 50% complete...").
Proof. vm_compute. reflexivity. Qed.
